(** * BitStream: a bit-granular writer over a fixed 1024-byte buffer.

    Shallow embedding of [src/bit-stream.js] (class [BitStream]) and
    proofs about its bit accumulation, alignment and flush protocol.

    JavaScript strings are modelled as lists of 8-bit characters, the
    [Buffer] as a list of byte values updated by index, numbers that are
    integers as [Z].  The methods mutate [this] and may throw, so they are
    written in a state-and-exception monad: a thrown exception leaves the
    state as it was at the [throw], as in JavaScript. *)

From Stdlib Require Import ZArith Ascii String List Lia DecimalString.
From stdpp Require Import base tactics list.

Local Open Scope Z_scope.

(** ** JavaScript values used by the class *)

Abbreviation jsstring := (list ascii).

(** A string literal as a [jsstring]. *)
Definition str (s : string) : jsstring := list_ascii_of_string s.

(** [const BUFFER_SIZE = 1024;] *)
Definition BUFFER_SIZE : Z := 1024.

(** What the writer hands downstream: [emit('data', chunk)] and
    [emit('finish')]. *)
Inductive event : Type :=
  | Data (chunk : list Z)
  | Finish.

(** The exceptions the methods can raise.  The first four are the
    [throw] statements of the class; the last two are raised by the
    platform ([null.filter], [undefined.slice], [String.prototype.repeat]
    with a negative count, [Buffer] range checks). *)
Inductive exn : Type :=
  | InvalidFormat (value : jsstring)
  | MinBitLength
  | MaxBitLength
  | ExceededBufferSize
  | PlatformTypeError
  | PlatformRangeError.

(** The fields of a [BitStream] instance that the methods read or write
    ([readable] and [writable] are set once by the constructor and never
    used again).  [buffer] is [None] once [end] has run [delete
    this.buffer].  [emitted] is the log of the events emitted so far, in
    emission order. *)
Record BitStream : Type := mkBitStream {
  bits : jsstring;
  buffer : option (list Z);
  offset : Z;
  emitted : list event
}.

(** ** The state-and-exception monad *)

Definition M (A : Type) : Type := BitStream -> (exn + A) * BitStream.

#[global] Instance M_ret : MRet M := fun A x s => (inr x, s).

#[global] Instance M_bind : MBind M := fun A B f m s =>
  match m s with
  | (inl e, s') => (inl e, s')
  | (inr x, s') => f x s'
  end.

Definition throw {A : Type} (e : exn) : M A := fun s => (inl e, s).

Definition lift {A : Type} (r : exn + A) : M A := fun s => (r, s).

Definition get_bits : M jsstring := fun s => (inr (bits s), s).

Definition set_bits (b : jsstring) : M unit := fun s =>
  (inr tt, mkBitStream b (buffer s) (offset s) (emitted s)).

Definition get_offset : M Z := fun s => (inr (offset s), s).

Definition set_offset (o : Z) : M unit := fun s =>
  (inr tt, mkBitStream (bits s) (buffer s) o (emitted s)).

(** Reading [this.buffer] in order to call a method on it: a
    [TypeError] when the property was deleted. *)
Definition get_buffer : M (list Z) := fun s =>
  match buffer s with
  | Some buf => (inr buf, s)
  | None => (inl PlatformTypeError, s)
  end.

Definition set_buffer (b : option (list Z)) : M unit := fun s =>
  (inr tt, mkBitStream (bits s) b (offset s) (emitted s)).

Definition emit (e : event) : M unit := fun s =>
  (inr tt, mkBitStream (bits s) (buffer s) (offset s) (emitted s ++ [e])).

(** Running a method from a state. *)
Definition run {A : Type} (m : M A) (s : BitStream) : (exn + A) * BitStream := m s.

(** [for (const x of xs) { body }] *)
Fixpoint for_of {A : Type} (xs : list A) (body : A -> M unit) : M unit :=
  match xs with
  | [] => mret tt
  | x :: xs' => body x;; for_of xs' body
  end.

(** ** Platform functions *)

Definition is_bit (c : ascii) : bool :=
  (c =? "0")%char || (c =? "1")%char.

(** [/[^0-1]/.test(value)] *)
Definition test_non_bit (value : jsstring) : bool :=
  existsb (fun c => negb (is_bit c)) value.

(** The characters that [.] does not match: LF and CR (the other two
    line terminators, U+2028 and U+2029, are outside the 8-bit range). *)
Definition is_line_terminator (c : ascii) : bool :=
  (c =? "010")%char || (c =? "013")%char.

(** All matches of [/.{1,8}/g], left to right; [cur] is the match being
    extended.  The quantifier is greedy, so a match ends at 8 characters,
    at a line terminator or at the end of the string. *)
Fixpoint match_dot_1_8 (cur : jsstring) (s : jsstring) : list jsstring :=
  match s with
  | [] => match cur with [] => [] | _ => [cur] end
  | c :: s' =>
      if is_line_terminator c
      then match cur with [] => [] | _ => [cur] end ++ match_dot_1_8 [] s'
      else if (length (cur ++ [c]) =? 8)%nat
           then (cur ++ [c]) :: match_dot_1_8 [] s'
           else match_dot_1_8 (cur ++ [c]) s'
  end.

(** [s.match(/.{1,8}/g)]: [null] when there is no match. *)
Definition String_match (s : jsstring) : option (list jsstring) :=
  match match_dot_1_8 [] s with
  | [] => None
  | ms => Some ms
  end.

(** [c.repeat(n)]: a [RangeError] for a negative count. *)
Definition String_repeat (c : ascii) (n : Z) : option jsstring :=
  if n <? 0 then None else Some (replicate (Z.to_nat n) c).

(** [s.substr(start)]: a negative [start] counts from the end. *)
Definition String_substr (s : jsstring) (start : Z) : jsstring :=
  let len := Z.of_nat (length s) in
  let from := if start <? 0 then Z.max (len + start) 0 else Z.min start len in
  drop (Z.to_nat from) s.

Definition is_white_space (c : ascii) : bool :=
  let n := N_of_ascii c in
  ((9 <=? n) && (n <=? 13) || (n =? 32) || (n =? 160))%N.

Definition bit_value (c : ascii) : Z := if (c =? "1")%char then 1 else 0.

(** The value of a string of binary digits, most significant first. *)
Definition binary_value (ds : jsstring) : Z :=
  fold_left (fun acc c => 2 * acc + bit_value c) ds 0.

Fixpoint take_while {A : Type} (p : A -> bool) (l : list A) : list A :=
  match l with
  | x :: l' => if p x then x :: take_while p l' else []
  | [] => []
  end.

Fixpoint drop_while {A : Type} (p : A -> bool) (l : list A) : list A :=
  match l with
  | x :: l' => if p x then drop_while p l' else l
  | [] => []
  end.

(** [parseInt(s, 2)]: leading white space, an optional sign, then the
    longest prefix of binary digits; [None] stands for [NaN]. *)
Definition parseInt2 (s : jsstring) : option Z :=
  let s1 := drop_while is_white_space s in
  let '(sign, s2) :=
    match s1 with
    | c :: r => if (c =? "-")%char then (-1, r)
                else if (c =? "+")%char then (1, r) else (1, s1)
    | [] => (1, s1)
    end in
  match take_while is_bit s2 with
  | [] => None
  | ds => Some (sign * binary_value ds)
  end.

(** [Buffer.alloc(size)]: zero-filled. *)
Definition Buffer_alloc (size : Z) : list Z := replicate (Z.to_nat size) 0.

Definition clamp_index (len i : Z) : Z :=
  if i <? 0 then Z.max (len + i) 0 else Z.min i len.

(** [buf.slice(start, end)] *)
Definition Buffer_slice (buf : list Z) (start end_ : Z) : list Z :=
  let len := Z.of_nat (length buf) in
  let a := clamp_index len start in
  let b := clamp_index len end_ in
  take (Z.to_nat (b - a)) (drop (Z.to_nat a) buf).

(** [buf.writeUInt8(value, offset)]: checks the value and the offset,
    then stores the byte; [NaN] passes the value check and is stored
    as 0. *)
Definition Buffer_writeUInt8 (value : option Z) (off : Z) (buf : list Z)
  : exn + list Z :=
  let v := match value with Some v => v | None => 0 end in
  if (v <? 0) || (255 <? v) then inl PlatformTypeError
  else if (off <? 0) || (Z.of_nat (length buf) <? off + 1) then inl PlatformRangeError
  else inr (<[Z.to_nat off := v]> buf).

Fixpoint pos_digits (p : positive) : jsstring :=
  match p with
  | xH => ["1"%char]
  | xO p' => pos_digits p' ++ ["0"%char]
  | xI p' => pos_digits p' ++ ["1"%char]
  end.

(** [n.toString(2)] for an integer [n]. *)
Definition Number_toString2 (n : Z) : jsstring :=
  match n with
  | Z0 => ["0"%char]
  | Zpos p => pos_digits p
  | Zneg p => "-"%char :: pos_digits p
  end.

(** The decimal digits of an integer. *)
Definition decimal (n : Z) : jsstring :=
  str (NilZero.string_of_int (Z.to_int n)).

(** The Number value that a positive integer [x] denotes: [x] itself
    up to 53 bits, otherwise [x] rounded to 53 significant bits, to the
    nearest and to the even significand on a tie; [None] stands for
    [Infinity]. *)
Definition nearest_double (x : Z) : option Z :=
  let b := Z.log2 x + 1 in
  if b <=? 53 then Some x
  else
    let u := 2 ^ (b - 53) in
    let q := x / u in
    let r := x mod u in
    let q' := if (u <? 2 * r) || ((u =? 2 * r) && Z.odd q) then q + 1 else q in
    let y := q' * u in
    if 2 ^ 1024 <=? y then None else Some y.

(** Whether the integer [c] denotes the positive Number value [x]: it
    is [x], or, for an [x] of more than 53 bits, it lies between the
    midpoints from [x] to the Number values next to it, the midpoints
    themselves counting when the significand of [x] is even.  The
    distances are taken four times, to stay in the integers. *)
Definition denotes (x c : Z) : bool :=
  let b := Z.log2 x + 1 in
  if b <=? 53 then c =? x
  else
    let u := 2 ^ (b - 53) in
    let m := x / u in
    let below := if m =? 2 ^ 52 then u else 2 * u in
    let above := 2 * u in
    let d := 4 * (c - x) in
    if Z.even m then (- below <=? d) && (d <=? above)
    else (- below <? d) && (d <? above).

(** The digits [s] and the exponent [e] of [Number::toString]: the
    largest [e], from the given one downwards, for which a multiple
    [s * 10 ^ e] denotes [x], so that [s] has as few digits as possible;
    of the two multiples next to [x] the closer one, and on a tie the
    even [s]. *)
Fixpoint shortest_digits (e : nat) (x : Z) : Z * nat :=
  let p := 10 ^ Z.of_nat e in
  let c1 := x / p * p in
  let c2 := c1 + p in
  let ok1 := (0 <? c1) && denotes x c1 in
  let ok2 := denotes x c2 in
  let s1 := c1 / p in
  let s2 := c2 / p in
  if ok1 && ok2 then
    if x - c1 <? c2 - x then (s1, e)
    else if c2 - x <? x - c1 then (s2, e)
    else if Z.even s1 then (s1, e) else (s2, e)
  else if ok1 then (s1, e)
  else if ok2 then (s2, e)
  else
    match e with
    | O => (x, O)
    | S e' => shortest_digits e' x
    end.

(** [x.toString()] for a positive integral Number value [x]: the digits
    followed by zeros when there are at most 21 digits in all, the
    exponent form otherwise. *)
Definition positive_toString (x : Z) : jsstring :=
  let '(s, e) := shortest_digits (length (decimal x)) x in
  let digits := decimal s in
  let n := (length digits + e)%nat in
  if (n <=? 21)%nat then digits ++ replicate e "0"%char
  else
    match digits with
    | [] => []
    | [d] => d :: str "e+" ++ decimal (Z.of_nat n - 1)
    | d :: ds => d :: "."%char :: ds ++ str "e+" ++ decimal (Z.of_nat n - 1)
    end.

(** [n.toString()] for the Number value that the integer [n] denotes,
    as [Array.prototype.join] renders the elements of a number array. *)
Definition Number_toString (n : Z) : jsstring :=
  match n with
  | Z0 => ["0"%char]
  | Zpos _ =>
      match nearest_double n with
      | Some x => positive_toString x
      | None => str "Infinity"
      end
  | Zneg p =>
      "-"%char ::
      match nearest_double (Zpos p) with
      | Some x => positive_toString x
      | None => str "Infinity"
      end
  end.

(** [value >>> 0] for an integer [value]. *)
Definition ToUint32 (value : Z) : Z := value mod 2 ^ 32.

(** ** The class *)

(** [constructor()] *)
Definition new_BitStream : BitStream :=
  mkBitStream [] (Some (Buffer_alloc BUFFER_SIZE)) 0 [].

(** [flush()] *)
Definition flush : M unit :=
  buf ← get_buffer;
  off ← get_offset;
  emit (Data (Buffer_slice buf 0 off));;
  set_buffer (Some (Buffer_alloc BUFFER_SIZE));;
  set_offset 0.

(** The body of the loop of [writeStringBits]. *)
Definition write_complete_byte (byte : jsstring) : M unit :=
  let uint8 := parseInt2 byte in
  off ← get_offset;
  (if off =? BUFFER_SIZE then flush else mret tt);;
  buf ← get_buffer;
  off ← get_offset;
  buf' ← lift (Buffer_writeUInt8 uint8 off buf);
  set_buffer (Some buf');;
  set_offset (off + 1).

(** [leftover.length ? leftover[0] : ''] *)
Definition first_or_empty (leftover : list jsstring) : jsstring :=
  match leftover with
  | l :: _ => l
  | [] => []
  end.

(** [writeStringBits(value)] *)
Definition writeStringBits (value : jsstring) : M unit :=
  if test_non_bit value then throw (InvalidFormat value)
  else
    b ← get_bits;
    match String_match (b ++ value) with
    | None => throw PlatformTypeError
    | Some bytes =>
        let complete := filter (fun byte => length byte = 8%nat) bytes in
        let leftover := filter (fun byte => length byte ≠ 8%nat) bytes in
        for_of complete write_complete_byte;;
        set_bits (first_or_empty leftover)
    end.

(** [align()] *)
Definition align : M unit :=
  b ← get_bits;
  match b with
  | [] => mret tt
  | _ =>
      match String_repeat "0" (8 - Z.of_nat (length b)) with
      | None => throw PlatformRangeError
      | Some padding => writeStringBits padding;; set_bits []
      end
  end.

(** [end()] *)
Definition end_ : M unit :=
  align;;
  flush;;
  emit Finish;;
  set_buffer None.

(** [writeArrayBits(value)], for an array of integers, each standing
    for the Number value it denotes. *)
Definition writeArrayBits (value : list Z) : M unit :=
  writeStringBits (concat (map Number_toString value)).

(** [writeIntBits(value, bitLength)]; a call without [bitLength] is a
    call with 32. *)
Definition writeIntBits (value bitLength : Z) : M unit :=
  if bitLength <? 0 then throw MinBitLength
  else if 32 <? bitLength then throw MaxBitLength
  else
    let binary := Number_toString2 (ToUint32 value) in
    match String_repeat (if value <? 0 then "1" else "0")
                        (32 - Z.of_nat (length binary)) with
    | None => throw PlatformRangeError
    | Some pad =>
        let binary := pad ++ binary in
        writeStringBits (String_substr binary (- bitLength))
    end.

(** [beforeWriteAligned(byteLength)] *)
Definition beforeWriteAligned (byteLength : Z) : M unit :=
  if BUFFER_SIZE <? byteLength then throw ExceededBufferSize
  else
    align;;
    off ← get_offset;
    if BUFFER_SIZE <=? off + byteLength then flush else mret tt.

(** ** Aligned writes

    Every aligned write calls [beforeWriteAligned] and then one method of
    the platform's [Buffer].  The [Buffer] codec is not part of the class:
    it is a parameter, a function from the value, the write head and the
    buffer to the new buffer and the number the method returns, or to the
    exception it throws. *)

Inductive fixed_kind : Type :=
  | DoubleBE | DoubleLE | FloatBE | FloatLE
  | Int8 | Int16BE | Int16LE | Int32BE | Int32LE
  | UInt8 | UInt16BE | UInt16LE | UInt32BE | UInt32LE.

Inductive variable_kind : Type := IntBE | IntLE | UIntBE | UIntLE.

(** The literal passed to [beforeWriteAligned] by each fixed-width
    method. *)
Definition fixed_byteLength (k : fixed_kind) : Z :=
  match k with
  | DoubleBE | DoubleLE => 8
  | FloatBE | FloatLE | Int32BE | Int32LE | UInt32BE | UInt32LE => 4
  | Int16BE | Int16LE | UInt16BE | UInt16LE => 2
  | Int8 | UInt8 => 1
  end.

(** The methods of the platform's [Buffer] that the aligned writes
    call, over the JavaScript numbers and the character encodings they
    take. *)
Record BufferCodec (number encoding : Type) : Type := {
  (** [Buffer.byteLength(value, encoding)] *)
  Buffer_byteLength : jsstring -> encoding -> Z;
  (** [buf.write(value, offset, length, encoding)]: the number of bytes
      written. *)
  Buffer_write : jsstring -> Z -> Z -> encoding -> list Z -> exn + (list Z * Z);
  (** [buf.writeDoubleBE(value, offset)] and the other fixed-width
      methods: the new write head. *)
  Buffer_writeFixed : fixed_kind -> number -> Z -> list Z -> exn + (list Z * Z);
  (** [buf.writeIntBE(value, offset, byteLength)] and the other
      variable-width methods: the new write head. *)
  Buffer_writeVariable : variable_kind -> number -> Z -> Z -> list Z -> exn + (list Z * Z)
}.

Arguments Buffer_byteLength {number encoding} _ _ _.
Arguments Buffer_write {number encoding} _ _ _ _ _ _.
Arguments Buffer_writeFixed {number encoding} _ _ _ _ _.
Arguments Buffer_writeVariable {number encoding} _ _ _ _ _ _.

Section AlignedWrites.

Context {number encoding : Type} (codec : BufferCodec number encoding).

(** [this.offset += this.buffer.write(value, this.offset, byteLength, encoding)] *)
Definition delegate_write (value : jsstring) (byteLength : Z) (enc : encoding) : M unit :=
  off ← get_offset;
  buf ← get_buffer;
  r ← lift (Buffer_write codec value off byteLength enc buf);
  set_buffer (Some r.1);;
  set_offset (off + r.2).

(** [this.offset = this.buffer.writeX(value, this.offset)] *)
Definition delegate_fixed (k : fixed_kind) (value : number) : M unit :=
  buf ← get_buffer;
  off ← get_offset;
  r ← lift (Buffer_writeFixed codec k value off buf);
  set_buffer (Some r.1);;
  set_offset r.2.

(** [this.offset = this.buffer.writeX(value, this.offset, byteLength)] *)
Definition delegate_variable (k : variable_kind) (value : number) (byteLength : Z) : M unit :=
  buf ← get_buffer;
  off ← get_offset;
  r ← lift (Buffer_writeVariable codec k value off byteLength buf);
  set_buffer (Some r.1);;
  set_offset r.2.

(** [write(value, encoding)]; a call without [encoding] is a call with
    ['utf8']. *)
Definition write (value : jsstring) (enc : encoding) : M unit :=
  let byteLength := Buffer_byteLength codec value enc in
  beforeWriteAligned byteLength;;
  delegate_write value byteLength enc.

(** The shape shared by the fourteen fixed-width methods. *)
Definition write_fixed (k : fixed_kind) (value : number) : M unit :=
  beforeWriteAligned (fixed_byteLength k);;
  delegate_fixed k value.

(** The shape shared by the four variable-width methods. *)
Definition write_variable (k : variable_kind) (value : number) (byteLength : Z) : M unit :=
  beforeWriteAligned byteLength;;
  delegate_variable k value byteLength.

Definition writeDoubleBE := write_fixed DoubleBE.
Definition writeDoubleLE := write_fixed DoubleLE.
Definition writeFloatBE := write_fixed FloatBE.
Definition writeFloatLE := write_fixed FloatLE.
Definition writeInt8 := write_fixed Int8.
Definition writeInt16BE := write_fixed Int16BE.
Definition writeInt16LE := write_fixed Int16LE.
Definition writeInt32BE := write_fixed Int32BE.
Definition writeInt32LE := write_fixed Int32LE.
Definition writeIntBE := write_variable IntBE.
Definition writeIntLE := write_variable IntLE.
Definition writeUInt8 := write_fixed UInt8.
Definition writeUInt16BE := write_fixed UInt16BE.
Definition writeUInt16LE := write_fixed UInt16LE.
Definition writeUInt32BE := write_fixed UInt32BE.
Definition writeUInt32LE := write_fixed UInt32LE.
Definition writeUIntBE := write_variable UIntBE.
Definition writeUIntLE := write_variable UIntLE.

(** A call of an aligned write. *)
Inductive aligned_call : Type :=
  | CallWrite (value : jsstring) (enc : encoding)
  | CallFixed (k : fixed_kind) (value : number)
  | CallVariable (k : variable_kind) (value : number) (byteLength : Z).

(** The byte length the call passes to [beforeWriteAligned]. *)
Definition call_byteLength (c : aligned_call) : Z :=
  match c with
  | CallWrite value enc => Buffer_byteLength codec value enc
  | CallFixed k _ => fixed_byteLength k
  | CallVariable _ _ byteLength => byteLength
  end.

(** The codec call that follows the guard. *)
Definition call_delegate (c : aligned_call) : M unit :=
  match c with
  | CallWrite value enc => delegate_write value (Buffer_byteLength codec value enc) enc
  | CallFixed k value => delegate_fixed k value
  | CallVariable k value byteLength => delegate_variable k value byteLength
  end.

Definition run_aligned (c : aligned_call) : M unit :=
  match c with
  | CallWrite value enc => write value enc
  | CallFixed k value => write_fixed k value
  | CallVariable k value byteLength => write_variable k value byteLength
  end.

(** A call of a public method. *)
Inductive call : Type :=
  | CallAlign
  | CallEnd
  | CallFlush
  | CallWriteArrayBits (value : list Z)
  | CallWriteIntBits (value bitLength : Z)
  | CallWriteStringBits (value : jsstring)
  | CallAligned (c : aligned_call).

Definition run_call (c : call) : M unit :=
  match c with
  | CallAlign => align
  | CallEnd => end_
  | CallFlush => flush
  | CallWriteArrayBits value => writeArrayBits value
  | CallWriteIntBits value bitLength => writeIntBits value bitLength
  | CallWriteStringBits value => writeStringBits value
  | CallAligned c => run_aligned c
  end.

(** The calls that align: after them no bit is pending. *)
Definition aligns (c : call) : bool :=
  match c with
  | CallAlign | CallEnd | CallAligned _ => true
  | _ => false
  end.

(** The states a writer goes through from its construction until
    [end] is called: any public method but [end], whether it returns
    or throws. *)
Inductive reachable : BitStream -> Prop :=
  | reachable_new : reachable new_BitStream
  | reachable_call c s r s' :
      reachable s -> c ≠ CallEnd -> run_call c s = (r, s') -> reachable s'.

End AlignedWrites.

(** ** State invariants *)

(** Pending bits are binary digits. *)
Definition bits_valid (b : jsstring) : Prop := Forall (fun c => is_bit c = true) b.

(** The buffer is present with its fixed capacity and the write head is
    inside it or just past its end. *)
Definition buffer_ok (s : BitStream) : Prop :=
  exists buf, buffer s = Some buf
    /\ Z.of_nat (length buf) = BUFFER_SIZE
    /\ 0 <= offset s <= BUFFER_SIZE.

Definition wf (s : BitStream) : Prop :=
  bits_valid (bits s) /\ (length (bits s) < 8)%nat /\ buffer_ok s.

(** ** States the methods lead to, and what has been written *)

Definition no_terminator (s : jsstring) : Prop :=
  Forall (fun c => is_line_terminator c = false) s.

Ltac run_monad :=
  cbv beta iota delta
    [run mbind M_bind mret M_ret throw lift get_bits set_bits get_offset
     set_offset get_buffer set_buffer emit bits buffer offset emitted].

(** The state after [flush()]. *)
Definition flushed (buf : list Z) (s : BitStream) : BitStream :=
  mkBitStream (bits s) (Some (Buffer_alloc BUFFER_SIZE)) 0
    (emitted s ++ [Data (Buffer_slice buf 0 (offset s))]).

(** The state after one complete byte [v] is stored: at the write head,
    or at the start of a new buffer when the buffer is full. *)
Definition put_byte (v : Z) (s : BitStream) : BitStream :=
  match buffer s with
  | Some buf =>
      if offset s =? BUFFER_SIZE
      then mkBitStream (bits s) (Some (<[0%nat := v]> (Buffer_alloc BUFFER_SIZE))) 1
             (emitted s ++ [Data (Buffer_slice buf 0 (offset s))])
      else mkBitStream (bits s) (Some (<[Z.to_nat (offset s) := v]> buf))
             (offset s + 1) (emitted s)
  | None => s
  end.

(** The state after the loop of [writeStringBits] stored the bytes
    [vs]. *)
Definition put_bytes (vs : list Z) (s : BitStream) : BitStream :=
  fold_left (fun s v => put_byte v s) vs s.

(** The bytes handed downstream, in order. *)
Definition emitted_bytes (es : list event) : list Z :=
  concat (map (fun e => match e with Data chunk => chunk | Finish => [] end) es).

(** All complete bytes written so far: those handed downstream, then
    those still in the buffer below the write head. *)
Definition written (s : BitStream) : list Z :=
  emitted_bytes (emitted s)
  ++ match buffer s with
     | Some buf => Buffer_slice buf 0 (offset s)
     | None => []
     end.

(** The [n] low bits of [v] as binary digits, most significant first. *)
Definition low_bits (v : Z) (n : nat) : jsstring :=
  map (fun i => if Z.testbit v (Z.of_nat i) then "1"%char else "0"%char)
      (rev (seq 0 n)).

(** A byte as eight binary digits. *)
Definition byte_digits (v : Z) : jsstring := low_bits v 8.

(** Every bit written so far, in order: the complete bytes, then the
    pending bits. *)
Definition stream_bits (s : BitStream) : jsstring :=
  concat (map byte_digits (written s)) ++ bits s.

(** The groups of 8 of [this.bits + value], and what is left over. *)
Definition complete_bytes (total : jsstring) : list jsstring :=
  filter (fun m => length m = 8%nat) (match_dot_1_8 [] total).

Definition leftover_bits (total : jsstring) : jsstring :=
  first_or_empty (filter (fun m => length m ≠ 8%nat) (match_dot_1_8 [] total)).

(** The state after [writeStringBits(value)] returns. *)
Definition wrote (value : jsstring) (s : BitStream) : BitStream :=
  let total := bits s ++ value in
  let s' := put_bytes (map binary_value (complete_bytes total)) s in
  mkBitStream (leftover_bits total) (buffer s') (offset s') (emitted s').

(** The pending bits padded with zeros to a whole byte. *)
Definition padded (b : jsstring) : jsstring :=
  b ++ replicate (8 - length b) "0"%char.

(** The state after [align()] returns. *)
Definition aligned (s : BitStream) : BitStream :=
  match bits s with
  | [] => s
  | b =>
      let s' := put_byte (binary_value (padded b)) s in
      mkBitStream [] (buffer s') (offset s') (emitted s')
  end.

(** A computation that never changes the pending bits, whether it
    returns or throws. *)
Definition keeps_bits {A : Type} (m : M A) : Prop :=
  forall s r s', m s = (r, s') -> bits s' = bits s.

(** A computation that, whether it returns or throws, leaves fewer than
    8 bits pending if it started so. *)
Definition keeps_pending_short {A : Type} (m : M A) : Prop :=
  forall s r s',
    (length (bits s) < 8)%nat -> m s = (r, s') -> (length (bits s') < 8)%nat.

(** A computation after whose normal return no bit is pending. *)
Definition returns_aligned {A : Type} (m : M A) : Prop :=
  forall s x s', m s = (inr x, s') -> bits s' = [].

(** A computation that keeps the writer well formed, whether it
    returns or throws. *)
Definition preserves_wf {A : Type} (m : M A) : Prop :=
  forall s r s', wf s -> m s = (r, s') -> wf s'.

(** What the class relies on from the platform's [Buffer]: a write that
    succeeds keeps the size of the buffer, and the write head it reports
    lies between where the write began and the end of the buffer. *)
Record codec_sound {number encoding : Type} (codec : BufferCodec number encoding)
  : Prop := {
  sound_write : forall value off len enc buf buf' n,
    Buffer_write codec value off len enc buf = inr (buf', n) ->
    length buf' = length buf /\ 0 <= n /\ off + n <= Z.of_nat (length buf);
  sound_fixed : forall k v off buf buf' off',
    Buffer_writeFixed codec k v off buf = inr (buf', off') ->
    length buf' = length buf /\ off <= off' <= Z.of_nat (length buf);
  sound_variable : forall k v off byteLength buf buf' off',
    Buffer_writeVariable codec k v off byteLength buf = inr (buf', off') ->
    length buf' = length buf /\ off <= off' <= Z.of_nat (length buf)
}.

(** A small codec for examples: numbers are integers, there is one
    encoding with one byte per character, and a number is stored as its
    low byte repeated over the width of the value.  Like the platform's
    codec it rejects a write that would not fit. *)
Definition store_bytes (bytes : list Z) (off : Z) (buf : list Z)
  : exn + (list Z * Z) :=
  if (off <? 0) || (Z.of_nat (length buf) <? off + Z.of_nat (length bytes))
  then inl PlatformRangeError
  else inr (list_inserts (Z.to_nat off) bytes buf, off + Z.of_nat (length bytes)).

Definition example_codec : BufferCodec Z unit := {|
  Buffer_byteLength value _ := Z.of_nat (length value);
  Buffer_write value off len _ buf :=
    match store_bytes
            (take (Z.to_nat len) (map (fun c => Z.of_N (N_of_ascii c)) value))
            off buf with
    | inr (buf', off') => inr (buf', off' - off)
    | inl e => inl e
    end;
  Buffer_writeFixed k v off buf :=
    store_bytes (replicate (Z.to_nat (fixed_byteLength k)) (v mod 256)) off buf;
  Buffer_writeVariable k v off byteLength buf :=
    if byteLength <? 0 then inl PlatformRangeError
    else store_bytes (replicate (Z.to_nat byteLength) (v mod 256)) off buf
|}.

(** A writer whose buffer is full of zero bytes, with one bit pending:
    the state after [writeStringBits] of 8192 zeros and then of ["1"]. *)
Definition full_with_pending : BitStream :=
  mkBitStream (str "1") (Some (Buffer_alloc BUFFER_SIZE)) BUFFER_SIZE [].

(** [end()] returns, leaves no bit pending and emits one chunk and then
    the completion signal, and nothing else. *)
Definition end_emits_one_chunk (s : BitStream) : Prop :=
  exists chunk s',
    run end_ s = (inr tt, s')
    /\ bits s' = []
    /\ emitted s' = emitted s ++ [Data chunk; Finish].

(** [this.bits = b] on a state. *)
Definition with_bits (b : jsstring) (s : BitStream) : BitStream :=
  mkBitStream b (buffer s) (offset s) (emitted s).

(** How [Array.prototype.join] renders the bit values 0 and 1. *)
Definition bit_digit (v : Z) : ascii := if v =? 1 then "1"%char else "0"%char.

(** The zero bits that aligning adds to the stream. *)
Definition padding_of (b : jsstring) : jsstring :=
  match b with
  | [] => []
  | _ => replicate (8 - length b) "0"%char
  end.

(** A computation that, whether it returns or throws, only hands chunks
    downstream: the log of events grows by [Data] events. *)
Definition emits_chunks {A : Type} (m : M A) : Prop :=
  forall s r s', m s = (r, s') ->
    exists chunks, emitted s' = emitted s ++ map Data chunks.

(** ** Characters and binary numerals *)

Lemma is_bit_cases c : is_bit c = true -> c = "0"%char \/ c = "1"%char.
Proof.
  unfold is_bit. intros H. apply orb_prop in H.
  destruct H as [H|H]; apply Ascii.eqb_eq in H; auto.
Qed.

Lemma test_non_bit_false value : test_non_bit value = false <-> bits_valid value.
Proof.
  unfold test_non_bit, bits_valid. induction value as [|c v IH]; simpl.
  - split; [constructor | reflexivity].
  - rewrite orb_false_iff, negb_false_iff, IH, Forall_cons. reflexivity.
Qed.

Lemma test_non_bit_true value : test_non_bit value = true <-> ~ bits_valid value.
Proof.
  rewrite <- test_non_bit_false. destruct (test_non_bit value); split; congruence.
Qed.

Lemma bits_valid_app a b : bits_valid (a ++ b) <-> bits_valid a /\ bits_valid b.
Proof. apply Forall_app. Qed.

Lemma bits_valid_replicate n : bits_valid (replicate n "0"%char).
Proof. apply Forall_replicate. reflexivity. Qed.

Lemma binary_value_acc ds : forall acc,
  fold_left (fun a c => 2 * a + bit_value c) ds acc
  = acc * 2 ^ Z.of_nat (length ds) + binary_value ds.
Proof.
  unfold binary_value. induction ds as [|d ds IH]; intros acc.
  - simpl. lia.
  - cbn [fold_left length]. rewrite IH, (IH (2 * 0 + bit_value d)).
    rewrite Nat2Z.inj_succ, Z.pow_succ_r by lia. ring.
Qed.

Lemma binary_value_cons d ds :
  binary_value (d :: ds) = bit_value d * 2 ^ Z.of_nat (length ds) + binary_value ds.
Proof.
  unfold binary_value at 1. cbn [fold_left]. rewrite binary_value_acc. ring.
Qed.

Lemma binary_value_app a b :
  binary_value (a ++ b) = binary_value a * 2 ^ Z.of_nat (length b) + binary_value b.
Proof.
  unfold binary_value at 1 2. rewrite fold_left_app. apply binary_value_acc.
Qed.

Lemma bit_value_range c : 0 <= bit_value c <= 1.
Proof. unfold bit_value. destruct (c =? "1")%char; lia. Qed.

Lemma binary_value_range ds : 0 <= binary_value ds < 2 ^ Z.of_nat (length ds).
Proof.
  induction ds as [|d ds IH].
  - unfold binary_value. simpl. lia.
  - rewrite binary_value_cons. cbn [length].
    rewrite Nat2Z.inj_succ, Z.pow_succ_r by lia.
    pose proof (bit_value_range d). nia.
Qed.

Lemma take_while_all {A} (p : A -> bool) l :
  Forall (fun x => p x = true) l -> take_while p l = l.
Proof.
  induction 1 as [|x l Hx _ IH]; simpl; [reflexivity|]. now rewrite Hx, IH.
Qed.

(** On a non-empty string of binary digits [parseInt(s, 2)] is the value
    of the numeral. *)
Lemma parseInt2_bits s :
  bits_valid s -> s <> [] -> parseInt2 s = Some (binary_value s).
Proof.
  intros Hs Hne. destruct s as [|c s]; [congruence|].
  pose proof Hs as Hall. apply Forall_cons in Hs. destruct Hs as [Hc _].
  assert (Hshape : drop_while is_white_space (c :: s) = c :: s
                   /\ (c =? "-")%char = false /\ (c =? "+")%char = false).
  { destruct (is_bit_cases c Hc); subst c; repeat split; reflexivity. }
  destruct Hshape as (Hw & Hm & Hp).
  unfold parseInt2. rewrite Hw, Hm, Hp, (take_while_all _ _ Hall).
  f_equal. lia.
Qed.

(** ** The matches of [/.{1,8}/g] *)

Lemma bits_valid_no_terminator s : bits_valid s -> no_terminator s.
Proof.
  intros H. eapply Forall_impl; [exact H|]. intros c Hc.
  destruct (is_bit_cases c Hc); subst c; reflexivity.
Qed.

(** Every match has between 1 and 8 characters. *)
Lemma match_dot_1_8_length s : forall cur,
  (length cur < 8)%nat ->
  Forall (fun m => (1 <= length m <= 8)%nat) (match_dot_1_8 cur s).
Proof.
  induction s as [|c s IH]; intros cur Hcur; cbn [match_dot_1_8].
  - destruct cur; constructor; [cbn [length] in *; lia | constructor].
  - destruct (is_line_terminator c).
    + apply Forall_app. split; [|apply IH; cbn; lia].
      destruct cur; constructor; [cbn [length] in *; lia | constructor].
    + destruct (Nat.eqb_spec (length (cur ++ [c])) 8) as [E|E].
      * constructor; [lia | apply IH; cbn; lia].
      * apply IH. rewrite length_app in *. cbn [length] in *. lia.
Qed.

(** The matches are made of characters of the string. *)
Lemma match_dot_1_8_Forall (P : ascii -> Prop) s : forall cur,
  Forall P cur -> Forall P s -> Forall (Forall P) (match_dot_1_8 cur s).
Proof.
  induction s as [|c s IH]; intros cur Hcur Hs; cbn [match_dot_1_8].
  - destruct cur; [apply Forall_nil_2 | apply Forall_cons; split; [assumption | apply Forall_nil_2]].
  - apply Forall_cons in Hs. destruct Hs as [Hc Hs].
    assert (Forall P (cur ++ [c])) by (apply Forall_app; auto).
    destruct (is_line_terminator c).
    + apply Forall_app. split; [|apply IH; auto].
      destruct cur; [apply Forall_nil_2 | apply Forall_cons; split; [assumption | apply Forall_nil_2]].
    + destruct (length (cur ++ [c]) =? 8)%nat; [constructor|]; auto.
Qed.

(** Without line terminators the matches partition the string: the
    complete groups, then what is left over. *)
Lemma match_dot_1_8_partition s : forall cur,
  no_terminator s -> (length cur < 8)%nat ->
  concat (filter (fun m => length m = 8%nat) (match_dot_1_8 cur s))
    ++ first_or_empty (filter (fun m => length m ≠ 8%nat) (match_dot_1_8 cur s))
  = cur ++ s.
Proof.
  induction s as [|c s IH]; intros cur Hs Hcur; cbn [match_dot_1_8].
  - rewrite app_nil_r. destruct cur as [|x cur]; [reflexivity|].
    rewrite filter_cons_False, filter_nil by lia.
    rewrite filter_cons_True by lia. cbn. reflexivity.
  - apply Forall_cons in Hs. destruct Hs as [Hc Hs]. rewrite Hc.
    destruct (Nat.eqb_spec (length (cur ++ [c])) 8) as [E|E].
    + rewrite filter_cons_True, filter_cons_False by (auto; lia).
      cbn [concat]. rewrite <- !app_assoc, (IH [] Hs) by (cbn; lia).
      reflexivity.
    + rewrite IH; auto.
      * now rewrite <- app_assoc.
      * rewrite length_app in *. cbn [length] in *. lia.
Qed.

(** ** The platform's buffer *)

Lemma Buffer_alloc_length : Z.of_nat (length (Buffer_alloc BUFFER_SIZE)) = BUFFER_SIZE.
Proof. unfold Buffer_alloc. rewrite length_replicate. reflexivity. Qed.

Lemma Buffer_slice_prefix buf off :
  0 <= off -> Buffer_slice buf 0 off = take (Z.to_nat off) buf.
Proof.
  intros Hoff. unfold Buffer_slice, clamp_index.
  replace (0 <? 0) with false by reflexivity.
  replace (off <? 0) with false by (symmetry; apply Z.ltb_ge; lia).
  rewrite (Z.min_l 0) by lia. change (Z.to_nat 0) with 0%nat.
  rewrite drop_0, Z.sub_0_r.
  destruct (Z.le_ge_cases off (Z.of_nat (length buf))) as [H|H].
  - rewrite Z.min_l by lia. reflexivity.
  - rewrite Z.min_r by lia. rewrite Nat2Z.id.
    rewrite !take_ge by lia. reflexivity.
Qed.

Lemma Buffer_writeUInt8_ok v off buf :
  0 <= v <= 255 -> 0 <= off < Z.of_nat (length buf) ->
  Buffer_writeUInt8 (Some v) off buf = inr (<[Z.to_nat off := v]> buf).
Proof.
  intros Hv Hoff. unfold Buffer_writeUInt8.
  replace (v <? 0) with false by (symmetry; apply Z.ltb_ge; lia).
  replace (255 <? v) with false by (symmetry; apply Z.ltb_ge; lia).
  replace (off <? 0) with false by (symmetry; apply Z.ltb_ge; lia).
  replace (Z.of_nat (length buf) <? off + 1) with false
    by (symmetry; apply Z.ltb_ge; lia).
  reflexivity.
Qed.

(** ** What the methods do on a well-formed writer *)

Lemma flush_run s buf :
  buffer s = Some buf -> run flush s = (inr tt, flushed buf s).
Proof.
  intros Hb. unfold flush, flushed. run_monad.
  destruct s as [b bf o e]. cbn in Hb. subst bf. reflexivity.
Qed.

Lemma flush_deleted s :
  buffer s = None -> run flush s = (inl PlatformTypeError, s).
Proof.
  intros Hb. unfold flush. run_monad.
  destruct s as [b bf o e]. cbn in Hb. subst bf. reflexivity.
Qed.

Lemma write_complete_byte_run byte s :
  buffer_ok s -> bits_valid byte -> length byte = 8%nat ->
  run (write_complete_byte byte) s = (inr tt, put_byte (binary_value byte) s).
Proof.
  intros (buf & Hb & Hlen & Hoff) Hbyte H8.
  assert (Hv : 0 <= binary_value byte <= 255).
  { pose proof (binary_value_range byte) as Hr. rewrite H8 in Hr.
    change (2 ^ Z.of_nat 8) with 256 in Hr. lia. }
  unfold write_complete_byte, put_byte.
  rewrite parseInt2_bits by (auto; intros ->; discriminate).
  destruct s as [b bf o e]. cbn [buffer offset] in *. subst bf.
  run_monad. destruct (Z.eqb_spec o BUFFER_SIZE) as [E|E].
  - pose proof (flush_run (mkBitStream b (Some buf) o e) buf eq_refl) as Hf.
    unfold run in Hf. rewrite Hf. unfold flushed. run_monad.
    rewrite Buffer_writeUInt8_ok by (rewrite ?Buffer_alloc_length; unfold BUFFER_SIZE; lia).
    reflexivity.
  - rewrite Buffer_writeUInt8_ok by lia. reflexivity.
Qed.

Lemma put_byte_bits v s : bits (put_byte v s) = bits s.
Proof.
  unfold put_byte. destruct (buffer s); [|reflexivity].
  destruct (offset s =? BUFFER_SIZE); reflexivity.
Qed.

Lemma put_byte_buffer_ok v s : buffer_ok s -> buffer_ok (put_byte v s).
Proof.
  intros (buf & Hb & Hlen & Hoff). unfold put_byte. rewrite Hb.
  destruct (Z.eqb_spec (offset s) BUFFER_SIZE) as [E|E]; eexists;
    (split; [reflexivity|]); cbn [offset]; rewrite length_insert;
    rewrite ?Buffer_alloc_length; unfold BUFFER_SIZE in *; lia.
Qed.

Lemma put_bytes_bits vs : forall s, bits (put_bytes vs s) = bits s.
Proof.
  induction vs as [|v vs IH]; intros s; [reflexivity|].
  cbn. unfold put_bytes in IH. rewrite IH. apply put_byte_bits.
Qed.

Lemma put_bytes_buffer_ok vs : forall s, buffer_ok s -> buffer_ok (put_bytes vs s).
Proof.
  induction vs as [|v vs IH]; intros s Hs; [exact Hs|].
  cbn. apply IH, put_byte_buffer_ok, Hs.
Qed.

Lemma for_of_write_complete_byte_run bytes : forall s,
  buffer_ok s ->
  Forall (fun byte => bits_valid byte /\ length byte = 8%nat) bytes ->
  run (for_of bytes write_complete_byte) s
  = (inr tt, put_bytes (map binary_value bytes) s).
Proof.
  induction bytes as [|byte bytes IH]; intros s Hs Hall; [reflexivity|].
  apply Forall_cons in Hall. destruct Hall as [[Hv H8] Hall].
  cbn [for_of map]. unfold run, mbind, M_bind.
  pose proof (write_complete_byte_run byte s Hs Hv H8) as Hstep.
  unfold run in Hstep. rewrite Hstep.
  apply (IH _ (put_byte_buffer_ok _ _ Hs) Hall).
Qed.

(** ** The bytes and bits written so far *)

Lemma emitted_bytes_app es es' :
  emitted_bytes (es ++ es') = emitted_bytes es ++ emitted_bytes es'.
Proof. unfold emitted_bytes. now rewrite map_app, concat_app. Qed.

Lemma emitted_bytes_data es chunk :
  emitted_bytes (es ++ [Data chunk]) = emitted_bytes es ++ chunk.
Proof.
  rewrite emitted_bytes_app. unfold emitted_bytes at 2. cbn [map concat].
  now rewrite app_nil_r.
Qed.

Lemma emitted_bytes_finish es :
  emitted_bytes (es ++ [Finish]) = emitted_bytes es.
Proof.
  rewrite emitted_bytes_app. unfold emitted_bytes at 2. cbn [map concat].
  now rewrite !app_nil_r.
Qed.

Lemma put_byte_written v s :
  buffer_ok s -> written (put_byte v s) = written s ++ [v].
Proof.
  intros (buf & Hb & Hlen & Hoff). unfold written, put_byte. rewrite Hb.
  destruct (Z.eqb_spec (offset s) BUFFER_SIZE) as [E|E]; cbn [emitted buffer offset].
  - rewrite emitted_bytes_data, <- !app_assoc. do 2 f_equal.
  - rewrite <- app_assoc. f_equal.
    rewrite !Buffer_slice_prefix by lia.
    replace (Z.to_nat (offset s + 1)) with (S (Z.to_nat (offset s))) by lia.
    rewrite (take_S_r _ _ v) by (apply list_lookup_insert_eq; lia).
    rewrite take_insert_ge by lia. reflexivity.
Qed.

Lemma put_bytes_written vs : forall s,
  buffer_ok s -> written (put_bytes vs s) = written s ++ vs.
Proof.
  induction vs as [|v vs IH]; intros s Hs; cbn.
  - now rewrite app_nil_r.
  - unfold put_bytes in IH. rewrite IH by now apply put_byte_buffer_ok.
    rewrite put_byte_written by assumption. now rewrite <- app_assoc.
Qed.

Lemma byte_digits_binary_value byte :
  bits_valid byte -> length byte = 8%nat -> byte_digits (binary_value byte) = byte.
Proof.
  intros Hv H8.
  do 8 (destruct byte as [|? byte]; [discriminate|]).
  destruct byte; [|discriminate].
  unfold bits_valid in Hv.
  repeat match goal with
         | H : Forall _ (_ :: _) |- _ =>
             apply Forall_cons in H; destruct H as [?%is_bit_cases H]
         end.
  repeat match goal with H : _ \/ _ |- _ => destruct H end; subst; reflexivity.
Qed.

(** ** [writeStringBits] on a well-formed writer *)

Lemma complete_bytes_valid total :
  bits_valid total ->
  Forall (fun byte => bits_valid byte /\ length byte = 8%nat) (complete_bytes total).
Proof.
  intros Hv. unfold complete_bytes. apply Forall_forall. intros m Hm.
  apply list_elem_of_filter in Hm. destruct Hm as [H8 Hm]. split; [|exact H8].
  pose proof (match_dot_1_8_Forall _ total [] (Forall_nil_2 _) Hv) as Hall.
  rewrite Forall_forall in Hall. apply Hall, Hm.
Qed.

Lemma leftover_bits_length total : (length (leftover_bits total) < 8)%nat.
Proof.
  unfold leftover_bits.
  destruct (filter _ _) as [|m ms] eqn:E; cbn [first_or_empty length]; [lia|].
  assert (Hm : m ∈ filter (fun m => length m ≠ 8%nat) (match_dot_1_8 [] total))
    by (rewrite E; left).
  apply list_elem_of_filter in Hm. destruct Hm as [Hne Hm].
  pose proof (match_dot_1_8_length total [] ltac:(cbn; lia)) as Hall.
  rewrite Forall_forall in Hall. specialize (Hall m Hm). lia.
Qed.

Lemma leftover_bits_valid total : bits_valid total -> bits_valid (leftover_bits total).
Proof.
  intros Hv. unfold leftover_bits.
  destruct (filter _ _) as [|m ms] eqn:E; cbn [first_or_empty]; [constructor|].
  assert (Hm : m ∈ filter (fun m => length m ≠ 8%nat) (match_dot_1_8 [] total))
    by (rewrite E; left).
  apply list_elem_of_filter in Hm. destruct Hm as [_ Hm].
  pose proof (match_dot_1_8_Forall _ total [] (Forall_nil_2 _) Hv) as Hall.
  rewrite Forall_forall in Hall. apply Hall, Hm.
Qed.

Lemma complete_leftover_partition total :
  bits_valid total ->
  concat (complete_bytes total) ++ leftover_bits total = total.
Proof.
  intros Hv. unfold complete_bytes, leftover_bits.
  apply (match_dot_1_8_partition total []).
  - now apply bits_valid_no_terminator.
  - cbn. lia.
Qed.

Lemma writeStringBits_run value s :
  wf s -> bits_valid value -> bits s ++ value <> [] ->
  run (writeStringBits value) s = (inr tt, wrote value s).
Proof.
  intros (Hbits & Hlen & Hbuf) Hvalue Hne.
  assert (Htotal : bits_valid (bits s ++ value)) by (apply bits_valid_app; auto).
  unfold writeStringBits. apply test_non_bit_false in Hvalue. rewrite Hvalue.
  unfold run, mbind, M_bind, get_bits, String_match.
  destruct (match_dot_1_8 [] (bits s ++ value)) as [|m ms] eqn:E.
  - exfalso. apply Hne. rewrite <- (complete_leftover_partition _ Htotal).
    unfold complete_bytes, leftover_bits. rewrite E. reflexivity.
  - rewrite <- E.
    pose proof (for_of_write_complete_byte_run _ s Hbuf
                  (complete_bytes_valid _ Htotal)) as Hloop.
    unfold run, complete_bytes in Hloop. rewrite Hloop. reflexivity.
Qed.

Lemma wrote_wf value s : wf s -> bits_valid value -> wf (wrote value s).
Proof.
  intros (Hbits & Hlen & Hbuf) Hvalue. unfold wf, wrote. cbn [bits].
  split; [|split].
  - apply leftover_bits_valid, bits_valid_app. auto.
  - apply leftover_bits_length.
  - destruct (put_bytes_buffer_ok
                (map binary_value (complete_bytes (bits s ++ value))) s Hbuf)
      as (buf & Hb & Hl & Ho).
    exists buf. cbn [buffer offset]. auto.
Qed.

Lemma concat_byte_digits bytes :
  Forall (fun byte => bits_valid byte /\ length byte = 8%nat) bytes ->
  concat (map byte_digits (map binary_value bytes)) = concat bytes.
Proof.
  induction 1 as [|byte bytes [Hv H8] _ IH]; [reflexivity|].
  cbn [map concat]. now rewrite IH, byte_digits_binary_value.
Qed.

(** [writeStringBits] appends exactly the bits of [value] to the
    stream. *)
Lemma wrote_stream_bits value s :
  wf s -> bits_valid value ->
  stream_bits (wrote value s) = stream_bits s ++ value.
Proof.
  intros (Hbits & Hlen & Hbuf) Hvalue.
  assert (Htotal : bits_valid (bits s ++ value)) by (apply bits_valid_app; auto).
  unfold stream_bits.
  assert (Hw : written (wrote value s)
               = written s ++ map binary_value (complete_bytes (bits s ++ value))).
  { rewrite <- (put_bytes_written _ s Hbuf). reflexivity. }
  rewrite Hw, map_app, concat_app, concat_byte_digits
    by now apply complete_bytes_valid.
  unfold wrote. cbn [bits].
  rewrite <- !app_assoc. f_equal. now apply complete_leftover_partition.
Qed.

(** ** [align] on a well-formed writer *)

Lemma match_dot_1_8_one_byte s : forall cur,
  no_terminator s -> length (cur ++ s) = 8%nat ->
  match_dot_1_8 cur s = [cur ++ s].
Proof.
  induction s as [|c s IH]; intros cur Hs H8; cbn [match_dot_1_8].
  - rewrite app_nil_r in *. destruct cur; [discriminate|reflexivity].
  - apply Forall_cons in Hs. destruct Hs as [Hc Hs]. rewrite Hc.
    destruct (Nat.eqb_spec (length (cur ++ [c])) 8) as [E|E].
    + destruct s as [|c' s].
      * reflexivity.
      * rewrite !length_app in *. cbn [length] in *. lia.
    + rewrite (IH (cur ++ [c])), <- app_assoc; auto.
      now rewrite <- app_assoc.
Qed.

Lemma padded_length (b : jsstring) : (length b < 8)%nat -> length (padded b) = 8%nat.
Proof. intros H. unfold padded. rewrite length_app, length_replicate. lia. Qed.

Lemma padded_valid b : bits_valid b -> bits_valid (padded b).
Proof. intros H. apply bits_valid_app. split; [exact H | apply bits_valid_replicate]. Qed.

Lemma String_repeat_padding (b : jsstring) :
  (length b < 8)%nat ->
  String_repeat "0" (8 - Z.of_nat (length b)) = Some (replicate (8 - length b) "0"%char).
Proof.
  intros H. unfold String_repeat.
  replace (8 - Z.of_nat (length b) <? 0) with false by (symmetry; apply Z.ltb_ge; lia).
  do 2 f_equal. lia.
Qed.

Lemma align_run s : wf s -> run align s = (inr tt, aligned s).
Proof.
  intros Hwf. pose proof Hwf as (Hbits & Hlen & Hbuf).
  unfold align, aligned. unfold run, mbind at 1, M_bind at 1, get_bits.
  destruct (bits s) as [|c b] eqn:Eb; [reflexivity|].
  rewrite <- Eb in *. rewrite String_repeat_padding by assumption.
  unfold mbind, M_bind.
  pose proof (writeStringBits_run (replicate (8 - length (bits s)) "0"%char) s Hwf
                (bits_valid_replicate _)) as Hrun.
  unfold run in Hrun. rewrite Hrun by (rewrite Eb; discriminate).
  unfold wrote, complete_bytes, set_bits. cbn [bits buffer offset emitted].
  rewrite (match_dot_1_8_one_byte _ []).
  - rewrite filter_cons_True, filter_nil by (apply padded_length, Hlen).
    reflexivity.
  - apply bits_valid_no_terminator, padded_valid, Hbits.
  - apply padded_length, Hlen.
Qed.

Lemma aligned_bits s : bits (aligned s) = [].
Proof. unfold aligned. destruct (bits s) eqn:E; [exact E | reflexivity]. Qed.

Lemma aligned_buffer_ok s : buffer_ok s -> buffer_ok (aligned s).
Proof.
  intros Hbuf. unfold aligned. destruct (bits s); [exact Hbuf|].
  destruct (put_byte_buffer_ok (binary_value (padded (a :: l))) s Hbuf)
    as (buf & Hb & Hl & Ho).
  exists buf. cbn [buffer offset]. auto.
Qed.

Lemma aligned_wf s : wf s -> wf (aligned s).
Proof.
  intros (Hbits & Hlen & Hbuf). unfold wf. rewrite aligned_bits.
  split; [constructor|]. split; [cbn; lia|]. now apply aligned_buffer_ok.
Qed.

(** Aligning appends the zero padding, and nothing else, to the
    stream. *)
Lemma aligned_stream_bits s :
  wf s -> bits s <> [] ->
  stream_bits (aligned s) = stream_bits s ++ replicate (8 - length (bits s)) "0"%char.
Proof.
  intros (Hbits & Hlen & Hbuf) Hne. unfold stream_bits.
  rewrite aligned_bits, app_nil_r. unfold aligned.
  destruct (bits s) as [|c b] eqn:Eb; [congruence|]. rewrite <- Eb in *.
  assert (Hw : written (mkBitStream [] (buffer (put_byte (binary_value (padded (bits s))) s))
                          (offset (put_byte (binary_value (padded (bits s))) s))
                          (emitted (put_byte (binary_value (padded (bits s))) s)))
               = written s ++ [binary_value (padded (bits s))]).
  { rewrite <- (put_byte_written _ s Hbuf). reflexivity. }
  rewrite Hw, map_app, concat_app. cbn [map concat].
  rewrite byte_digits_binary_value, app_nil_r
    by (apply padded_valid, Hbits || apply padded_length, Hlen).
  unfold padded. now rewrite <- app_assoc.
Qed.

(** ** What every method does to the pending bits *)

Lemma keeps_bits_ret {A} (x : A) : keeps_bits (mret x).
Proof. intros s r s' H. injection H as _ <-. reflexivity. Qed.

Lemma keeps_bits_throw {A} e : keeps_bits (@throw A e).
Proof. intros s r s' H. injection H as _ <-. reflexivity. Qed.

Lemma keeps_bits_lift {A} (v : exn + A) : keeps_bits (lift v).
Proof. intros s r s' H. injection H as _ <-. reflexivity. Qed.

Lemma keeps_bits_bind {A B} (m : M A) (f : A -> M B) :
  keeps_bits m -> (forall x, keeps_bits (f x)) -> keeps_bits (m ≫= f).
Proof.
  intros Hm Hf s r s' H. unfold mbind, M_bind in H.
  destruct (m s) as [[e|x] s1] eqn:E.
  - injection H as _ <-. exact (Hm _ _ _ E).
  - rewrite (Hf x _ _ _ H). exact (Hm _ _ _ E).
Qed.

Lemma keeps_bits_get_bits : keeps_bits get_bits.
Proof. intros s r s' H. injection H as _ <-. reflexivity. Qed.

Lemma keeps_bits_get_offset : keeps_bits get_offset.
Proof. intros s r s' H. injection H as _ <-. reflexivity. Qed.

Lemma keeps_bits_get_buffer : keeps_bits get_buffer.
Proof.
  intros s r s' H. unfold get_buffer in H.
  destruct (buffer s); injection H as _ <-; reflexivity.
Qed.

Lemma keeps_bits_set_offset o : keeps_bits (set_offset o).
Proof. intros s r s' H. injection H as _ <-. reflexivity. Qed.

Lemma keeps_bits_set_buffer b : keeps_bits (set_buffer b).
Proof. intros s r s' H. injection H as _ <-. reflexivity. Qed.

Lemma keeps_bits_emit e : keeps_bits (emit e).
Proof. intros s r s' H. injection H as _ <-. reflexivity. Qed.

Create HintDb bits_db.

#[local] Hint Resolve keeps_bits_ret keeps_bits_throw keeps_bits_lift
  keeps_bits_get_bits keeps_bits_get_offset keeps_bits_get_buffer
  keeps_bits_set_offset keeps_bits_set_buffer keeps_bits_emit : bits_db.

Ltac keeps_bits_steps :=
  repeat first
    [ apply keeps_bits_bind; [|intros ?]
    | match goal with |- keeps_bits (if ?c then _ else _) => destruct c end
    | solve [auto with bits_db] ].

Lemma keeps_bits_flush : keeps_bits flush.
Proof. unfold flush. keeps_bits_steps. Qed.

#[local] Hint Resolve keeps_bits_flush : bits_db.

Lemma keeps_bits_write_complete_byte byte : keeps_bits (write_complete_byte byte).
Proof. unfold write_complete_byte. keeps_bits_steps. Qed.

#[local] Hint Resolve keeps_bits_write_complete_byte : bits_db.

Lemma keeps_bits_for_of {A} (xs : list A) (body : A -> M unit) :
  (forall x, keeps_bits (body x)) -> keeps_bits (for_of xs body).
Proof.
  intros Hbody. induction xs as [|x xs IH]; cbn [for_of].
  - apply keeps_bits_ret.
  - apply keeps_bits_bind; auto.
Qed.

Lemma keeps_pending_short_of_keeps_bits {A} (m : M A) :
  keeps_bits m -> keeps_pending_short m.
Proof. intros Hm s r s' Hlen H. now rewrite (Hm _ _ _ H). Qed.

Lemma keeps_pending_short_bind {A B} (m : M A) (f : A -> M B) :
  keeps_pending_short m -> (forall x, keeps_pending_short (f x)) ->
  keeps_pending_short (m ≫= f).
Proof.
  intros Hm Hf s r s' Hlen H. unfold mbind, M_bind in H.
  destruct (m s) as [[e|x] s1] eqn:E.
  - injection H as _ <-. exact (Hm _ _ _ Hlen E).
  - exact (Hf x _ _ _ (Hm _ _ _ Hlen E) H).
Qed.

Lemma keeps_pending_short_set_bits b :
  (length b < 8)%nat -> keeps_pending_short (set_bits b).
Proof. intros Hb s r s' _ H. injection H as _ <-. exact Hb. Qed.

Lemma String_match_leftover total bytes :
  String_match total = Some bytes ->
  first_or_empty (filter (fun m => length m ≠ 8%nat) bytes) = leftover_bits total.
Proof.
  unfold String_match, leftover_bits.
  destruct (match_dot_1_8 [] total); [discriminate|]. now intros [= <-].
Qed.

Lemma keeps_pending_short_writeStringBits value :
  keeps_pending_short (writeStringBits value).
Proof.
  unfold writeStringBits. destruct (test_non_bit value).
  - apply keeps_pending_short_of_keeps_bits, keeps_bits_throw.
  - intros s r s' Hlen H. unfold mbind at 1, M_bind at 1, get_bits in H.
    destruct (String_match (bits s ++ value)) as [bytes|] eqn:E.
    + revert H. apply keeps_pending_short_bind; [|intros []|exact Hlen].
      * apply keeps_pending_short_of_keeps_bits, keeps_bits_for_of.
        auto with bits_db.
      * apply keeps_pending_short_set_bits.
        rewrite (String_match_leftover _ _ E). apply leftover_bits_length.
    + injection H as _ <-. exact Hlen.
Qed.

Lemma keeps_pending_short_align : keeps_pending_short align.
Proof.
  intros s r s' Hlen H. unfold align, mbind at 1, M_bind at 1, get_bits in H.
  destruct (bits s) as [|c b] eqn:Eb.
  - injection H as _ <-. rewrite Eb. cbn. lia.
  - destruct (String_repeat _ _) as [padding|].
    + revert H. apply keeps_pending_short_bind; [|intros []|rewrite Eb; exact Hlen].
      * apply keeps_pending_short_writeStringBits.
      * apply keeps_pending_short_set_bits. cbn. lia.
    + injection H as _ <-. rewrite Eb. exact Hlen.
Qed.

Lemma returns_aligned_align : returns_aligned align.
Proof.
  intros s x s' H. unfold align, mbind at 1, M_bind at 1, get_bits in H.
  destruct (bits s) as [|c b] eqn:Eb.
  - injection H as _ <-. exact Eb.
  - destruct (String_repeat _ _) as [padding|]; [|discriminate].
    unfold mbind, M_bind in H.
    destruct (writeStringBits padding s) as [[e|[]] s1]; [discriminate|].
    injection H as _ <-. reflexivity.
Qed.

Lemma returns_aligned_bind {A B} (m : M A) (f : A -> M B) :
  returns_aligned m -> (forall x, keeps_bits (f x)) -> returns_aligned (m ≫= f).
Proof.
  intros Hm Hf s y s' H. unfold mbind, M_bind in H.
  destruct (m s) as [[e|x] s1] eqn:E; [discriminate|].
  rewrite (Hf x _ _ _ H). exact (Hm _ _ _ E).
Qed.

Lemma returns_aligned_end : returns_aligned end_.
Proof.
  unfold end_. apply returns_aligned_bind; [apply returns_aligned_align|].
  intros _. keeps_bits_steps.
Qed.

Lemma returns_aligned_beforeWriteAligned byteLength :
  returns_aligned (beforeWriteAligned byteLength).
Proof.
  unfold beforeWriteAligned. destruct (BUFFER_SIZE <? byteLength).
  - intros s x s' H. discriminate.
  - apply returns_aligned_bind; [apply returns_aligned_align|].
    intros _. keeps_bits_steps.
Qed.

Lemma keeps_pending_short_end : keeps_pending_short end_.
Proof.
  unfold end_. apply keeps_pending_short_bind; [apply keeps_pending_short_align|].
  intros _. apply keeps_pending_short_of_keeps_bits. keeps_bits_steps.
Qed.

Lemma keeps_pending_short_beforeWriteAligned byteLength :
  keeps_pending_short (beforeWriteAligned byteLength).
Proof.
  unfold beforeWriteAligned. destruct (BUFFER_SIZE <? byteLength).
  - apply keeps_pending_short_of_keeps_bits, keeps_bits_throw.
  - apply keeps_pending_short_bind; [apply keeps_pending_short_align|].
    intros _. apply keeps_pending_short_of_keeps_bits. keeps_bits_steps.
Qed.

Lemma keeps_pending_short_writeIntBits value bitLength :
  keeps_pending_short (writeIntBits value bitLength).
Proof.
  unfold writeIntBits.
  destruct (bitLength <? 0);
    [apply keeps_pending_short_of_keeps_bits, keeps_bits_throw|].
  destruct (32 <? bitLength);
    [apply keeps_pending_short_of_keeps_bits, keeps_bits_throw|].
  destruct (String_repeat _ _);
    [apply keeps_pending_short_writeStringBits
    |apply keeps_pending_short_of_keeps_bits, keeps_bits_throw].
Qed.

(** ** Every method keeps the writer well formed *)

Lemma preserves_wf_bind {A B} (m : M A) (f : A -> M B) :
  preserves_wf m -> (forall x, preserves_wf (f x)) -> preserves_wf (m ≫= f).
Proof.
  intros Hm Hf s r s' Hwf H. unfold mbind, M_bind in H.
  destruct (m s) as [[e|x] s1] eqn:E.
  - injection H as _ <-. exact (Hm _ _ _ Hwf E).
  - exact (Hf x _ _ _ (Hm _ _ _ Hwf E) H).
Qed.

Lemma preserves_wf_throw {A} e : preserves_wf (@throw A e).
Proof. intros s r s' Hwf H. injection H as _ <-. exact Hwf. Qed.

Lemma preserves_wf_ret {A} (x : A) : preserves_wf (mret x).
Proof. intros s r s' Hwf H. injection H as _ <-. exact Hwf. Qed.

Lemma preserves_wf_get_offset : preserves_wf get_offset.
Proof. intros s r s' Hwf H. injection H as _ <-. exact Hwf. Qed.

Lemma flushed_wf buf s : wf s -> wf (flushed buf s).
Proof.
  intros (Hbits & Hlen & Hbuf). unfold wf, flushed. cbn [bits].
  split; [exact Hbits|]. split; [exact Hlen|].
  exists (Buffer_alloc BUFFER_SIZE). cbn [buffer offset].
  split; [reflexivity|]. split; [apply Buffer_alloc_length|].
  unfold BUFFER_SIZE. lia.
Qed.

Lemma preserves_wf_flush : preserves_wf flush.
Proof.
  intros s r s' Hwf H. pose proof Hwf as (_ & _ & buf & Hb & _).
  pose proof (flush_run s buf Hb) as Hrun. unfold run in Hrun.
  rewrite Hrun in H. injection H as _ <-. now apply flushed_wf.
Qed.

Lemma writeStringBits_empty s :
  bits s = [] -> run (writeStringBits []) s = (inl PlatformTypeError, s).
Proof.
  intros Hb. unfold writeStringBits, run, mbind, M_bind, get_bits.
  cbn [test_non_bit existsb]. rewrite Hb. reflexivity.
Qed.

Lemma preserves_wf_writeStringBits value : preserves_wf (writeStringBits value).
Proof.
  intros s r s' Hwf H.
  destruct (test_non_bit value) eqn:Etest.
  - unfold writeStringBits in H. rewrite Etest in H.
    injection H as _ <-. exact Hwf.
  - apply test_non_bit_false in Etest.
    destruct (bits s ++ value) as [|c total] eqn:Etotal.
    + apply app_eq_nil in Etotal. destruct Etotal as [Hb ->].
      pose proof (writeStringBits_empty s Hb) as Hrun. unfold run in Hrun.
      rewrite Hrun in H. injection H as _ <-. exact Hwf.
    + pose proof (writeStringBits_run value s Hwf Etest) as Hrun.
      unfold run in Hrun. rewrite Hrun in H by (rewrite Etotal; discriminate).
      injection H as _ <-. now apply wrote_wf.
Qed.

Lemma preserves_wf_writeArrayBits value : preserves_wf (writeArrayBits value).
Proof. apply preserves_wf_writeStringBits. Qed.

Lemma preserves_wf_writeIntBits value bitLength :
  preserves_wf (writeIntBits value bitLength).
Proof.
  unfold writeIntBits.
  destruct (bitLength <? 0); [apply preserves_wf_throw|].
  destruct (32 <? bitLength); [apply preserves_wf_throw|].
  destruct (String_repeat _ _);
    [apply preserves_wf_writeStringBits | apply preserves_wf_throw].
Qed.

Lemma preserves_wf_align : preserves_wf align.
Proof.
  intros s r s' Hwf H. pose proof (align_run s Hwf) as Hrun.
  unfold run in Hrun. rewrite Hrun in H. injection H as _ <-.
  now apply aligned_wf.
Qed.

Lemma preserves_wf_beforeWriteAligned byteLength :
  preserves_wf (beforeWriteAligned byteLength).
Proof.
  unfold beforeWriteAligned.
  destruct (BUFFER_SIZE <? byteLength); [apply preserves_wf_throw|].
  apply preserves_wf_bind; [apply preserves_wf_align|]. intros _.
  apply preserves_wf_bind; [apply preserves_wf_get_offset|]. intros off.
  destruct (BUFFER_SIZE <=? off + byteLength);
    [apply preserves_wf_flush | apply preserves_wf_ret].
Qed.

(** ** The guard of the aligned writes *)

(** The state in which the codec is called: after aligning, and after
    the flush when the value would reach the end of the buffer. *)
Lemma beforeWriteAligned_run byteLength s :
  wf s -> byteLength <= BUFFER_SIZE ->
  exists buf,
    buffer (aligned s) = Some buf
    /\ run (beforeWriteAligned byteLength) s
       = (inr tt, if BUFFER_SIZE <=? offset (aligned s) + byteLength
                  then flushed buf (aligned s) else aligned s).
Proof.
  intros Hwf Hle.
  destruct (aligned_wf s Hwf) as (_ & _ & buf & Hb & _).
  exists buf. split; [exact Hb|].
  unfold beforeWriteAligned.
  replace (BUFFER_SIZE <? byteLength) with false by (symmetry; apply Z.ltb_ge; lia).
  unfold run, mbind, M_bind. pose proof (align_run s Hwf) as Hrun.
  unfold run in Hrun. rewrite Hrun. unfold get_offset.
  destruct (BUFFER_SIZE <=? offset (aligned s) + byteLength); [|reflexivity].
  apply (flush_run _ _ Hb).
Qed.

(** ** The example codec *)

Lemma store_bytes_sound bytes off buf buf' off' :
  store_bytes bytes off buf = inr (buf', off') ->
  length buf' = length buf
  /\ off' = off + Z.of_nat (length bytes)
  /\ off' <= Z.of_nat (length buf).
Proof.
  unfold store_bytes.
  destruct (Z.ltb_spec off 0); [discriminate|].
  destruct (Z.ltb_spec (Z.of_nat (length buf)) (off + Z.of_nat (length bytes)));
    [discriminate|].
  cbn [orb]. intros [= <- <-]. rewrite length_inserts. lia.
Qed.

Lemma example_codec_sound : codec_sound example_codec.
Proof.
  split; cbn [example_codec Buffer_write Buffer_writeFixed Buffer_writeVariable].
  - intros value off len enc buf buf' n H.
    destruct (store_bytes _ off buf) as [e|[b o]] eqn:E; [discriminate|].
    injection H as <- <-. apply store_bytes_sound in E. lia.
  - intros k v off buf buf' off' H. apply store_bytes_sound in H. lia.
  - intros k v off byteLength buf buf' off' H.
    destruct (byteLength <? 0); [discriminate|].
    apply store_bytes_sound in H. lia.
Qed.

(** ** The aligned writes, for any codec *)

Section AlignedWriteProofs.

Context {number encoding : Type} (codec : BufferCodec number encoding).

Lemma run_aligned_guard (c : aligned_call) :
  run_aligned codec c
  = (beforeWriteAligned (call_byteLength codec c);; call_delegate codec c).
Proof. destruct c; reflexivity. Qed.

Lemma keeps_bits_call_delegate (c : aligned_call) :
  keeps_bits (call_delegate codec c).
Proof.
  destruct c; cbn [call_delegate];
    unfold delegate_write, delegate_fixed, delegate_variable; keeps_bits_steps.
Qed.

Lemma returns_aligned_run_aligned (c : aligned_call) :
  returns_aligned (run_aligned codec c).
Proof.
  rewrite run_aligned_guard.
  apply returns_aligned_bind; [apply returns_aligned_beforeWriteAligned|].
  intros _. apply keeps_bits_call_delegate.
Qed.

Lemma keeps_pending_short_run_aligned (c : aligned_call) :
  keeps_pending_short (run_aligned codec c).
Proof.
  rewrite run_aligned_guard.
  apply keeps_pending_short_bind; [apply keeps_pending_short_beforeWriteAligned|].
  intros _. apply keeps_pending_short_of_keeps_bits, keeps_bits_call_delegate.
Qed.

Lemma keeps_pending_short_run_call (c : call) :
  keeps_pending_short (run_call codec c).
Proof.
  destruct c; cbn [run_call].
  - apply keeps_pending_short_align.
  - apply keeps_pending_short_end.
  - apply keeps_pending_short_of_keeps_bits, keeps_bits_flush.
  - apply keeps_pending_short_writeStringBits.
  - apply keeps_pending_short_writeIntBits.
  - apply keeps_pending_short_writeStringBits.
  - apply keeps_pending_short_run_aligned.
Qed.

Lemma returns_aligned_run_call (c : call) :
  aligns c = true -> returns_aligned (run_call codec c).
Proof.
  destruct c; cbn [aligns run_call]; try discriminate; intros _.
  - apply returns_aligned_align.
  - apply returns_aligned_end.
  - apply returns_aligned_run_aligned.
Qed.

(** Before [end] is called fewer than 8 bits are pending, whatever the
    codec does. *)
Lemma reachable_pending_short s : reachable codec s -> (length (bits s) < 8)%nat.
Proof.
  induction 1 as [|c s r s' _ IH _ Hrun].
  - cbn. lia.
  - exact (keeps_pending_short_run_call c s r s' IH Hrun).
Qed.

Hypothesis Hsound : codec_sound codec.

Lemma preserves_wf_call_delegate (c : aligned_call) :
  preserves_wf (call_delegate codec c).
Proof.
  intros s r s' Hwf H. pose proof Hwf as (Hbits & Hlen & buf & Hb & Hl & Ho).
  destruct s as [b bf o e]. cbn [bits buffer offset] in *. subst bf.
  destruct c as [value enc|k value|k value byteLength]; cbn [call_delegate] in H;
    unfold delegate_write, delegate_fixed, delegate_variable in H;
    revert H; run_monad;
    match goal with |- context [match ?w with inl _ => _ | inr _ => _ end] =>
      destruct w as [err|[buf' n]] eqn:E
    end; intros [= <- <-]; try exact Hwf.
  - apply (sound_write codec Hsound) in E. repeat split; auto.
    exists buf'. cbn [buffer offset fst snd]. repeat split; auto; lia.
  - apply (sound_fixed codec Hsound) in E. repeat split; auto.
    exists buf'. cbn [buffer offset fst snd]. repeat split; auto; lia.
  - apply (sound_variable codec Hsound) in E. repeat split; auto.
    exists buf'. cbn [buffer offset fst snd]. repeat split; auto; lia.
Qed.

Lemma preserves_wf_run_call (c : call) :
  c <> CallEnd -> preserves_wf (run_call codec c).
Proof.
  intros Hc. destruct c; cbn [run_call]; try congruence.
  - apply preserves_wf_align.
  - apply preserves_wf_flush.
  - apply preserves_wf_writeArrayBits.
  - apply preserves_wf_writeIntBits.
  - apply preserves_wf_writeStringBits.
  - rewrite run_aligned_guard.
    apply preserves_wf_bind; [apply preserves_wf_beforeWriteAligned|].
    intros _. apply preserves_wf_call_delegate.
Qed.

Lemma new_BitStream_wf : wf new_BitStream.
Proof.
  split; [constructor|]. split; [cbn; lia|].
  exists (Buffer_alloc BUFFER_SIZE). split; [reflexivity|].
  split; [apply Buffer_alloc_length|]. cbn. unfold BUFFER_SIZE. lia.
Qed.

(** Until [end] is called the writer is well formed. *)
Lemma reachable_wf s : reachable codec s -> wf s.
Proof.
  induction 1 as [|c s r s' _ IH Hc Hrun].
  - apply new_BitStream_wf.
  - exact (preserves_wf_run_call c Hc s r s' IH Hrun).
Qed.

End AlignedWriteProofs.

(** ** [end] on a well-formed writer *)

Lemma end_run s :
  wf s ->
  exists buf,
    buffer (aligned s) = Some buf
    /\ run end_ s
       = (inr tt, mkBitStream [] None 0
                    (emitted (aligned s)
                     ++ [Data (Buffer_slice buf 0 (offset (aligned s))); Finish])).
Proof.
  intros Hwf. destruct (aligned_wf s Hwf) as (_ & _ & buf & Hb & _).
  exists buf. split; [exact Hb|].
  unfold end_, run, mbind, M_bind.
  pose proof (align_run s Hwf) as Ha. unfold run in Ha. rewrite Ha.
  pose proof (flush_run _ _ Hb) as Hf. unfold run in Hf. rewrite Hf.
  unfold flushed, emit, set_buffer. cbn [bits buffer offset emitted].
  rewrite aligned_bits, <- app_assoc. reflexivity.
Qed.

(** Aligning hands the buffer downstream only when it is full and a
    pending byte has to be stored. *)
Lemma aligned_emitted s buf :
  buffer s = Some buf -> Z.of_nat (length buf) = BUFFER_SIZE ->
  emitted (aligned s)
  = emitted s ++ match bits s with
                 | [] => []
                 | _ => if offset s =? BUFFER_SIZE then [Data buf] else []
                 end.
Proof.
  intros Hb Hl. unfold aligned.
  destruct (bits s); [now rewrite app_nil_r|].
  unfold put_byte. rewrite Hb.
  destruct (Z.eqb_spec (offset s) BUFFER_SIZE) as [E|E]; cbn [emitted].
  - rewrite E, Buffer_slice_prefix by (unfold BUFFER_SIZE; lia).
    rewrite take_ge by lia. reflexivity.
  - now rewrite app_nil_r.
Qed.

Lemma written_flushed buf s :
  buffer s = Some buf -> 0 <= offset s ->
  emitted_bytes (emitted s ++ [Data (Buffer_slice buf 0 (offset s))]) = written s.
Proof.
  intros Hb Ho. unfold written. rewrite Hb. apply emitted_bytes_data.
Qed.

Lemma aligned_offset s buf :
  buffer s = Some buf -> offset s <> BUFFER_SIZE ->
  offset (aligned s) = offset s + match bits s with [] => 0 | _ => 1 end.
Proof.
  intros Hb Hne. unfold aligned. destruct (bits s); [lia|].
  unfold put_byte. rewrite Hb.
  destruct (Z.eqb_spec (offset s) BUFFER_SIZE); [congruence|reflexivity].
Qed.

(** ** [writeIntBits]: the binary digits of a 32-bit integer *)

Lemma low_bits_length v n : length (low_bits v n) = n.
Proof. unfold low_bits. now rewrite length_map, length_rev, length_seq. Qed.

Lemma low_bits_S v n :
  low_bits v (S n)
  = (if Z.testbit v (Z.of_nat n) then "1"%char else "0"%char) :: low_bits v n.
Proof. unfold low_bits. rewrite seq_S, rev_app_distr. reflexivity. Qed.

Lemma low_bits_div2 v n :
  low_bits v (S n)
  = low_bits (Z.div2 v) n ++ [if Z.testbit v 0 then "1"%char else "0"%char].
Proof.
  unfold low_bits. cbn [seq]. rewrite <- seq_shift.
  change (rev (0%nat :: map S (seq 0 n))) with (rev (map S (seq 0 n)) ++ [0%nat]).
  rewrite map_app. f_equal.
  rewrite <- map_rev, map_map. apply map_ext. intros i.
  rewrite Z.div2_spec, Z.shiftr_spec by lia.
  now replace (Z.of_nat (S i)) with (Z.of_nat i + 1) by lia.
Qed.

Lemma low_bits_drop v m k : drop m (low_bits v (m + k)) = low_bits v k.
Proof.
  induction m as [|m IH]; [reflexivity|].
  cbn [Nat.add]. rewrite low_bits_S. exact IH.
Qed.

Lemma low_bits_high_zeros v m k :
  0 <= v < 2 ^ Z.of_nat k ->
  low_bits v (m + k) = replicate m "0"%char ++ low_bits v k.
Proof.
  intros Hv. induction m as [|m IH]; [reflexivity|].
  cbn [Nat.add replicate]. rewrite low_bits_S, IH.
  rewrite <- (Z.mod_small v (2 ^ Z.of_nat k)) at 1 by lia.
  rewrite Z.mod_pow2_bits_high by lia. reflexivity.
Qed.

Lemma low_bits_ToUint32 v n :
  (n <= 32)%nat -> low_bits (ToUint32 v) n = low_bits v n.
Proof.
  intros Hn. unfold low_bits, ToUint32. apply map_ext_in. intros i Hi.
  apply in_rev, in_seq in Hi. now rewrite Z.mod_pow2_bits_low by lia.
Qed.

Lemma pos_digits_length p : length (pos_digits p) = Pos.size_nat p.
Proof.
  induction p as [p IH|p IH|]; cbn [pos_digits Pos.size_nat];
    rewrite ?length_app, ?IH; cbn [length]; lia.
Qed.

Lemma pos_digits_low_bits p : pos_digits p = low_bits (Z.pos p) (Pos.size_nat p).
Proof.
  induction p as [p IH|p IH|]; cbn [pos_digits Pos.size_nat];
    [rewrite low_bits_div2, IH; reflexivity
    |rewrite low_bits_div2, IH; reflexivity
    |reflexivity].
Qed.

Lemma pos_size_bounds p :
  2 ^ Z.of_nat (Pos.size_nat p) <= 2 * Z.pos p < 2 * 2 ^ Z.of_nat (Pos.size_nat p).
Proof.
  induction p as [p IH|p IH|]; cbn [Pos.size_nat];
    rewrite ?Nat2Z.inj_succ, ?Z.pow_succ_r by lia; [lia|lia|].
  change (2 ^ Z.of_nat 1) with 2. lia.
Qed.

(** The 32 digits [writeIntBits] builds for a signed 32-bit integer are
    the bits of its two's-complement form, most significant first. *)
Lemma writeIntBits_digits value :
  - 2 ^ 31 <= value < 2 ^ 31 ->
  exists pad,
    String_repeat (if value <? 0 then "1"%char else "0"%char)
      (32 - Z.of_nat (length (Number_toString2 (ToUint32 value)))) = Some pad
    /\ pad ++ Number_toString2 (ToUint32 value) = low_bits (ToUint32 value) 32.
Proof.
  intros Hv.
  assert (Hn : 0 <= ToUint32 value < 2 ^ 32)
    by (unfold ToUint32; apply Z.mod_pos_bound; lia).
  destruct (ToUint32 value) as [|p|p] eqn:En; [| |lia].
  - assert (value = 0).
    { unfold ToUint32 in En. apply Z.mod_divide in En; [|lia].
      destruct En as [q Hq]. lia. }
    subst value. exists (replicate 31 "0"%char). split; reflexivity.
  - cbn [Number_toString2]. rewrite pos_digits_length, pos_digits_low_bits.
    pose proof (pos_size_bounds p) as Hsize.
    assert (Hk : (Pos.size_nat p <= 32)%nat).
    { destruct (Nat.le_gt_cases (Pos.size_nat p) 32%nat) as [H|H]; [exact H|].
      exfalso.
      assert (2 ^ 33 <= 2 ^ Z.of_nat (Pos.size_nat p))
        by (apply Z.pow_le_mono_r; lia).
      lia. }
    unfold String_repeat.
    replace (32 - Z.of_nat (Pos.size_nat p) <? 0) with false
      by (symmetry; apply Z.ltb_ge; lia).
    eexists. split; [reflexivity|].
    destruct (Z.ltb_spec value 0) as [Hneg|Hpos].
    + assert (Pos.size_nat p = 32%nat).
      { assert (2 ^ 31 <= Z.pos p).
        { rewrite <- En. unfold ToUint32.
          replace value with (value + 2 ^ 32 + (-1) * 2 ^ 32) by ring.
          rewrite Z.mod_add, Z.mod_small by lia. lia. }
        destruct (Nat.eq_dec (Pos.size_nat p) 32%nat) as [H32|H32]; [exact H32|].
        exfalso.
        assert (2 ^ Z.of_nat (Pos.size_nat p) <= 2 ^ 31)
          by (apply Z.pow_le_mono_r; lia).
        lia. }
      rewrite H. reflexivity.
    + rewrite <- (low_bits_high_zeros _ (Z.to_nat (32 - Z.of_nat (Pos.size_nat p))))
        by lia.
      f_equal. lia.
Qed.

Lemma String_substr_low_bits v (bitLength : Z) :
  1 <= bitLength <= 32 ->
  String_substr (low_bits v 32) (- bitLength) = low_bits v (Z.to_nat bitLength).
Proof.
  intros Hb. unfold String_substr. rewrite low_bits_length.
  replace (- bitLength <? 0) with true by (symmetry; apply Z.ltb_lt; lia).
  rewrite Z.max_l by lia.
  replace 32%nat with (Z.to_nat (Z.of_nat 32 + - bitLength) + Z.to_nat bitLength)%nat
    at 2 by lia.
  apply low_bits_drop.
Qed.

(** With a bit length of 0, [substr(-0)] is [substr(0)]: all 32
    digits. *)
Lemma String_substr_zero (s : jsstring) : String_substr s (- 0) = s.
Proof.
  unfold String_substr. cbn [Z.opp Z.ltb Z.compare].
  rewrite Z.min_l by lia. reflexivity.
Qed.

(** For a bit length from 1 to 32, [writeIntBits] writes the low bits
    of the two's-complement form through [writeStringBits]. *)
Lemma writeIntBits_run value bitLength s :
  - 2 ^ 31 <= value < 2 ^ 31 -> 1 <= bitLength <= 32 ->
  run (writeIntBits value bitLength) s
  = run (writeStringBits (low_bits (ToUint32 value) (Z.to_nat bitLength))) s.
Proof.
  intros Hv Hb. unfold writeIntBits.
  replace (bitLength <? 0) with false by (symmetry; apply Z.ltb_ge; lia).
  replace (32 <? bitLength) with false by (symmetry; apply Z.ltb_ge; lia).
  destruct (writeIntBits_digits value Hv) as (pad & -> & ->).
  now rewrite String_substr_low_bits.
Qed.

(** On a well-formed writer they are exactly the bits added to the
    stream. *)
Lemma writeIntBits_stream_bits value bitLength s :
  wf s -> - 2 ^ 31 <= value < 2 ^ 31 -> 1 <= bitLength <= 32 ->
  exists s',
    run (writeIntBits value bitLength) s = (inr tt, s')
    /\ wf s'
    /\ stream_bits s' = stream_bits s ++ low_bits value (Z.to_nat bitLength).
Proof.
  intros Hwf Hv Hb. rewrite writeIntBits_run by assumption.
  assert (Hvalid : bits_valid (low_bits (ToUint32 value) (Z.to_nat bitLength))).
  { unfold low_bits. apply Forall_forall. intros c Hc.
    apply list_elem_of_In, in_map_iff in Hc. destruct Hc as (i & <- & _).
    now destruct (Z.testbit _ _). }
  exists (wrote (low_bits (ToUint32 value) (Z.to_nat bitLength)) s).
  split; [|split].
  - apply writeStringBits_run; auto.
    intros Hnil. apply (f_equal (@length ascii)) in Hnil.
    rewrite length_app, low_bits_length in Hnil. cbn in Hnil. lia.
  - now apply wrote_wf.
  - rewrite wrote_stream_bits by assumption.
    now rewrite low_bits_ToUint32 by lia.
Qed.

(** With a bit length of 0, all 32 digits are written. *)
Lemma writeIntBits_zero_run value s :
  - 2 ^ 31 <= value < 2 ^ 31 ->
  run (writeIntBits value 0) s
  = run (writeStringBits (low_bits (ToUint32 value) 32)) s.
Proof.
  intros Hv. unfold writeIntBits. cbn [Z.ltb Z.compare].
  destruct (writeIntBits_digits value Hv) as (pad & -> & ->).
  now rewrite String_substr_zero.
Qed.

(** ** [writeStringBits] with the empty string *)

Lemma match_dot_1_8_short s : forall cur,
  no_terminator s -> (length (cur ++ s) < 8)%nat -> cur ++ s <> [] ->
  match_dot_1_8 cur s = [cur ++ s].
Proof.
  induction s as [|c s IH]; intros cur Hs Hlen Hne; cbn [match_dot_1_8].
  - rewrite app_nil_r in *. destruct cur; [congruence|reflexivity].
  - apply Forall_cons in Hs. destruct Hs as [Hc Hs]. rewrite Hc.
    rewrite length_app in Hlen. cbn [length] in Hlen.
    destruct (Nat.eqb_spec (length (cur ++ [c])) 8) as [E|E].
    + rewrite length_app in E. cbn [length] in E. lia.
    + rewrite (IH (cur ++ [c])), <- app_assoc; auto.
      * rewrite <- app_assoc, length_app. cbn [length app]. lia.
      * rewrite <- app_assoc. cbn [app]. now destruct cur.
Qed.

(** With bits pending, the empty string changes nothing. *)
Lemma writeStringBits_empty_pending s :
  wf s -> bits s <> [] -> run (writeStringBits []) s = (inr tt, s).
Proof.
  intros Hwf Hne. pose proof Hwf as (Hbits & Hlen & _).
  rewrite (writeStringBits_run [] s Hwf (Forall_nil_2 _)) by now rewrite app_nil_r.
  f_equal. unfold wrote, complete_bytes, leftover_bits.
  rewrite app_nil_r.
  rewrite (match_dot_1_8_short (bits s) []) by
    (auto using bits_valid_no_terminator).
  cbn [app].
  rewrite (filter_cons_False (fun m : jsstring => length m = 8%nat)) by lia.
  rewrite (filter_cons_True (fun m : jsstring => length m ≠ 8%nat)) by lia.
  rewrite !filter_nil. destruct s. reflexivity.
Qed.

(** ** The claims *)

(** C4: a string with a character other than ['0'] and ['1'] makes
    [writeStringBits] throw its format error, and the writer is as it
    was before the call: pending bits, buffer and write head unchanged,
    nothing emitted. *)
Theorem writeStringBits_invalid_format (value : jsstring) (s : BitStream) :
  (exists c, In c value /\ is_bit c = false) ->
  run (writeStringBits value) s = (inl (InvalidFormat value), s).
Proof.
  intros (c & Hin & Hc). unfold writeStringBits.
  assert (Htest : test_non_bit value = true).
  { unfold test_non_bit. apply existsb_exists. exists c.
    split; [exact Hin | now rewrite Hc]. }
  rewrite Htest. reflexivity.
Qed.

Lemma writeStringBits_invalid_format_witness :
  run (writeStringBits (str "01a")) (mkBitStream (str "1") None 7 [Finish])
  = (inl (InvalidFormat (str "01a")), mkBitStream (str "1") None 7 [Finish]).
Proof.
  apply writeStringBits_invalid_format.
  exists "a"%char. split; [simpl; auto | reflexivity].
Defined.

(** C5: on a well-formed writer with [n] bits pending, [1 <= n <= 7],
    [align] appends [8 - n] zero bits: exactly one byte, the pending
    bits padded with zeros on the right, is stored at the write head
    (at the start of a new buffer when the buffer was full, which is
    then handed downstream first), and no bit is pending afterwards.
    With no bit pending [align] changes nothing. *)
Theorem align_pads_pending_bits (s : BitStream) (buf : list Z) :
  wf s -> buffer s = Some buf ->
  (bits s = [] -> run align s = (inr tt, s))
  /\ (bits s <> [] ->
      let n := length (bits s) in
      let v := binary_value (bits s ++ replicate (8 - n) "0"%char) in
      run align s
      = (inr tt,
         if offset s =? BUFFER_SIZE
         then mkBitStream [] (Some (<[0%nat := v]> (Buffer_alloc BUFFER_SIZE))) 1
                (emitted s ++ [Data buf])
         else mkBitStream [] (Some (<[Z.to_nat (offset s) := v]> buf))
                (offset s + 1) (emitted s))
      /\ written (run align s).2 = written s ++ [v]
      /\ stream_bits (run align s).2
         = stream_bits s ++ replicate (8 - n) "0"%char).
Proof.
  intros Hwf Hb. pose proof Hwf as (Hbits & Hlen & buf' & Hb' & Hl & Ho).
  rewrite Hb in Hb'. injection Hb' as <-.
  rewrite (align_run s Hwf). split.
  - intros He. unfold aligned. now rewrite He.
  - intros Hne. cbn zeta. cbn [snd]. split; [|split].
    + f_equal. unfold aligned.
      destruct (bits s) as [|c b] eqn:Eb; [congruence|].
      unfold put_byte, padded. rewrite Hb.
      destruct (Z.eqb_spec (offset s) BUFFER_SIZE) as [E|E];
        cbn [buffer offset emitted]; [|reflexivity].
      rewrite E, Buffer_slice_prefix by (unfold BUFFER_SIZE; lia).
      rewrite take_ge by lia. reflexivity.
    + unfold aligned. destruct (bits s) as [|c b] eqn:Eb; [congruence|].
      rewrite <- (put_byte_written _ s) by (exists buf; auto).
      reflexivity.
    + now apply aligned_stream_bits.
Qed.

Lemma align_pads_pending_bits_witness :
  run align (mkBitStream (str "0011") (Some (Buffer_alloc BUFFER_SIZE)) 0 [])
  = (inr tt, mkBitStream [] (Some (<[0%nat := 48]> (Buffer_alloc BUFFER_SIZE))) 1 []).
Proof.
  assert (Hwf : wf (mkBitStream (str "0011") (Some (Buffer_alloc BUFFER_SIZE)) 0 [])).
  { split; [repeat constructor|]. split; [simpl; lia|].
    exists (Buffer_alloc BUFFER_SIZE).
    split; [reflexivity|]. split; [reflexivity|]. simpl. unfold BUFFER_SIZE. lia. }
  destruct (align_pads_pending_bits _ _ Hwf eq_refl) as [_ Hpad].
  destruct Hpad as [Hrun _]; [discriminate|]. exact Hrun.
Defined.

(** C9: on a new writer, [writeStringBits("0011")] twice and then
    [flush()] emit one chunk, the single byte 0x33. *)
Theorem writeStringBits_twice_then_flush :
  run (writeStringBits (str "0011");; writeStringBits (str "0011");; flush)
      new_BitStream
  = (inr tt, mkBitStream [] (Some (Buffer_alloc BUFFER_SIZE)) 0 [Data [51]]).
Proof. vm_compute. reflexivity. Qed.

(** C10: on a well-formed writer and for a byte length between 0 and
    the capacity, the guard of the aligned writes returns, and in the
    state it returns the buffer has its full capacity and the value fits
    between the write head and the end of the buffer. *)
Theorem beforeWriteAligned_leaves_room (byteLength : Z) (s : BitStream) :
  wf s -> 0 <= byteLength <= BUFFER_SIZE ->
  exists s' buf,
    run (beforeWriteAligned byteLength) s = (inr tt, s')
    /\ buffer s' = Some buf
    /\ Z.of_nat (length buf) = BUFFER_SIZE
    /\ 0 <= offset s'
    /\ offset s' + byteLength <= BUFFER_SIZE.
Proof.
  intros Hwf Hbl.
  destruct (beforeWriteAligned_run byteLength s Hwf (proj2 Hbl)) as (buf & Hb & Hrun).
  destruct (aligned_wf s Hwf) as (_ & _ & buf1 & Hb1 & Hl1 & Ho1).
  rewrite Hb in Hb1. injection Hb1 as <-.
  destruct (Z.leb_spec BUFFER_SIZE (offset (aligned s) + byteLength)) as [E|E].
  - exists (flushed buf (aligned s)), (Buffer_alloc BUFFER_SIZE).
    split; [exact Hrun|]. cbn [flushed buffer offset].
    split; [reflexivity|]. split; [apply Buffer_alloc_length|]. lia.
  - exists (aligned s), buf. split; [exact Hrun|]. repeat split; auto; lia.
Qed.

Lemma beforeWriteAligned_leaves_room_witness :
  exists s' buf,
    run (beforeWriteAligned 4)
        (mkBitStream [] (Some (Buffer_alloc BUFFER_SIZE)) 1022 []) = (inr tt, s')
    /\ buffer s' = Some buf
    /\ Z.of_nat (length buf) = BUFFER_SIZE
    /\ 0 <= offset s'
    /\ offset s' + 4 <= BUFFER_SIZE.
Proof.
  apply beforeWriteAligned_leaves_room.
  - split; [constructor|]. split; [simpl; lia|].
    exists (Buffer_alloc BUFFER_SIZE).
    split; [reflexivity|]. split; [reflexivity|]. simpl. unfold BUFFER_SIZE. lia.
  - unfold BUFFER_SIZE. lia.
Defined.

Section AlignedWriteClaims.

Context {number encoding : Type} (codec : BufferCodec number encoding).

(** C3: an aligned write whose byte length exceeds the capacity of the
    buffer throws the capacity error before anything else happens: the
    writer is as it was before the call, nothing aligned, written,
    flushed or emitted. *)
Theorem aligned_write_over_capacity_throws (c : aligned_call) (s : BitStream) :
  BUFFER_SIZE < call_byteLength codec c ->
  run (run_aligned codec c) s = (inl ExceededBufferSize, s).
Proof.
  intros Hbig. rewrite run_aligned_guard.
  unfold run, mbind, M_bind, beforeWriteAligned.
  replace (BUFFER_SIZE <? call_byteLength codec c) with true
    by (symmetry; apply Z.ltb_lt; exact Hbig).
  reflexivity.
Qed.

(** C6: on a well-formed writer, an aligned write whose value fits the
    buffer first aligns; then, exactly when the write head plus the byte
    length reaches or exceeds the capacity, the guard flushes: the bytes
    below the write head are emitted, the buffer is replaced and the
    write head is 0.  The codec is then called with the value at that
    write head on that buffer, the new buffer if the guard flushed and
    the old one, in place, if not; what it returns becomes the buffer
    and the write head of the writer, and if it throws the writer stays
    as the guard left it.  A write of 4 bytes with the write head at
    1022 flushes first and writes at 0 in the new buffer. *)
Theorem aligned_write_flushes_when_full (c : aligned_call) (s : BitStream) :
  wf s -> call_byteLength codec c <= BUFFER_SIZE ->
  let byteLength := call_byteLength codec c in
  let s1 := (run align s).2 in
  exists buf1,
    run align s = (inr tt, s1)
    /\ buffer s1 = Some buf1
    /\ let flushes := BUFFER_SIZE <=? offset s1 + byteLength in
       let buf2 := if flushes then Buffer_alloc BUFFER_SIZE else buf1 in
       let off2 := if flushes then 0 else offset s1 in
       let events :=
         if flushes
         then emitted s1 ++ [Data (Buffer_slice buf1 0 (offset s1))]
         else emitted s1 in
       run (beforeWriteAligned byteLength) s
       = (inr tt, mkBitStream [] (Some buf2) off2 events)
       /\ run (run_aligned codec c) s
          = match c with
            | CallWrite value enc =>
                match Buffer_write codec value off2 byteLength enc buf2 with
                | inr (buf', n) =>
                    (inr tt, mkBitStream [] (Some buf') (off2 + n) events)
                | inl e => (inl e, mkBitStream [] (Some buf2) off2 events)
                end
            | CallFixed k value =>
                match Buffer_writeFixed codec k value off2 buf2 with
                | inr (buf', off') =>
                    (inr tt, mkBitStream [] (Some buf') off' events)
                | inl e => (inl e, mkBitStream [] (Some buf2) off2 events)
                end
            | CallVariable k value len =>
                match Buffer_writeVariable codec k value off2 len buf2 with
                | inr (buf', off') =>
                    (inr tt, mkBitStream [] (Some buf') off' events)
                | inl e => (inl e, mkBitStream [] (Some buf2) off2 events)
                end
            end
       /\ (offset s = 1022 -> byteLength = 4 ->
           flushes = true
           /\ exists chunk, events = emitted s ++ [Data chunk]).
Proof.
  intros Hwf Hle. cbn zeta. rewrite (align_run s Hwf). cbn [snd].
  destruct (beforeWriteAligned_run _ s Hwf Hle) as (buf1 & Hb1 & Hguard).
  exists buf1. split; [reflexivity|]. split; [exact Hb1|].
  set (flushes := BUFFER_SIZE <=? offset (aligned s) + call_byteLength codec c) in *.
  assert (Hstate :
            (if flushes then flushed buf1 (aligned s) else aligned s)
            = mkBitStream []
                (Some (if flushes then Buffer_alloc BUFFER_SIZE else buf1))
                (if flushes then 0 else offset (aligned s))
                (if flushes
                 then emitted (aligned s)
                      ++ [Data (Buffer_slice buf1 0 (offset (aligned s)))]
                 else emitted (aligned s))).
  { destruct flushes.
    - unfold flushed. now rewrite aligned_bits.
    - pose proof (aligned_bits s) as Hbits.
      destruct (aligned s) as [b bf o e]. cbn [bits buffer offset emitted] in *.
      now subst b bf. }
  rewrite Hstate in Hguard. split; [exact Hguard|]. split.
  - rewrite run_aligned_guard. unfold run, mbind, M_bind.
    unfold run in Hguard. rewrite Hguard.
    destruct c as [value enc|k value|k value len];
      cbn [call_delegate call_byteLength];
      unfold delegate_write, delegate_fixed, delegate_variable; run_monad;
      match goal with |- context [match ?w with inl _ => _ | inr _ => _ end] =>
        destruct w as [err|[buf' n]]
      end; reflexivity.
  - intros Ho H4. pose proof Hwf as (_ & _ & buf & Hb & Hl & _).
    assert (Hne : offset s <> BUFFER_SIZE) by (unfold BUFFER_SIZE; lia).
    pose proof (aligned_offset s buf Hb Hne) as Hoff.
    pose proof (aligned_emitted s buf Hb Hl) as Hem.
    replace (offset s =? BUFFER_SIZE) with false in Hem
      by (symmetry; apply Z.eqb_neq; exact Hne).
    assert (Hem' : emitted (aligned s) = emitted s)
      by (rewrite Hem; destruct (bits s); apply app_nil_r).
    assert (Hfl : flushes = true).
    { unfold flushes. apply Z.leb_le. unfold BUFFER_SIZE.
      destruct (bits s); lia. }
    split; [exact Hfl|]. rewrite Hfl, Hem'. eexists. reflexivity.
Qed.

(** C7: if fewer than 8 bits are pending before a call of a public
    method and the call returns normally, then fewer than 8 bits are
    pending after it; and after [align], [end] and every aligned write no
    bit is pending. *)
Theorem pending_bits_below_8 (c : call) (s s' : BitStream) :
  (length (bits s) < 8)%nat ->
  run (run_call codec c) s = (inr tt, s') ->
  (length (bits s') < 8)%nat /\ (aligns c = true -> bits s' = []).
Proof.
  intros Hlen Hrun. split.
  - exact (keeps_pending_short_run_call codec c s _ s' Hlen Hrun).
  - intros Ha. exact (returns_aligned_run_call codec c Ha s tt s' Hrun).
Qed.

(** C8, as the code has it: from every state the writer can be in
    before [end] is called, [end] returns and leaves no bit pending; it
    emits the bytes below the write head as the final chunk and then the
    completion signal, once each, and before them the full buffer as a
    chunk of its own when the write head is at the capacity and bits are
    pending.  The chunks carry every bit written and not yet emitted,
    then the zero padding, and nothing else; the final chunk is empty
    when nothing was written. *)
Theorem end_emits_final_chunk_and_finish (s : BitStream) :
  codec_sound codec -> reachable codec s ->
  exists buf chunk,
    let full := match bits s with
                | [] => []
                | _ => if offset s =? BUFFER_SIZE then [Data buf] else []
                end in
    let padding := match bits s with
                   | [] => []
                   | b => replicate (8 - length b) "0"%char
                   end in
    buffer s = Some buf
    /\ run end_ s
       = (inr tt, mkBitStream [] None 0 (emitted s ++ full ++ [Data chunk; Finish]))
    /\ concat (map byte_digits (emitted_bytes (emitted s ++ full ++ [Data chunk])))
       = stream_bits s ++ padding
    /\ (stream_bits s = [] -> chunk = []).
Proof.
  intros Hsound Hreach. pose proof (reachable_wf codec Hsound s Hreach) as Hwf.
  pose proof Hwf as (Hbits & Hlen & buf & Hb & Hl & Ho).
  destruct (end_run s Hwf) as (bufA & HbA & Hrun).
  destruct (aligned_wf s Hwf) as (_ & _ & bufA' & HbA' & _ & HoA).
  exists buf, (Buffer_slice bufA 0 (offset (aligned s))). cbn zeta.
  pose proof (aligned_emitted s buf Hb Hl) as Hem.
  split; [exact Hb|]. split; [|split].
  - rewrite Hrun, Hem, <- app_assoc. reflexivity.
  - rewrite app_assoc, <- Hem, (written_flushed _ _ HbA) by lia.
    destruct (bits s) as [|c b] eqn:Eb.
    + unfold aligned, stream_bits. now rewrite Eb, !app_nil_r.
    + rewrite <- Eb, <- aligned_stream_bits by (auto; congruence).
      unfold stream_bits. now rewrite aligned_bits, app_nil_r.
  - intros Hnil. unfold stream_bits in Hnil.
    apply app_eq_nil in Hnil. destruct Hnil as [Hw Hbs].
    unfold aligned. rewrite Hbs.
    destruct (written s) as [|w ws] eqn:Ew; [|discriminate].
    unfold written in Ew. rewrite Hb in Ew.
    apply app_eq_nil in Ew. destruct Ew as [_ Hslice].
    unfold aligned in HbA. rewrite Hbs, Hb in HbA. injection HbA as <-.
    exact Hslice.
Qed.

End AlignedWriteClaims.

Lemma aligned_write_over_capacity_throws_witness :
  run (run_aligned example_codec (CallVariable IntBE 5 2000)) full_with_pending
  = (inl ExceededBufferSize, full_with_pending).
Proof.
  apply aligned_write_over_capacity_throws. simpl. unfold BUFFER_SIZE. lia.
Defined.

Lemma aligned_write_flushes_when_full_witness :
  run (run_aligned example_codec (CallFixed UInt32BE 117901063))
      (mkBitStream [] (Some (Buffer_alloc BUFFER_SIZE)) 1022 [])
  = (inr tt,
     mkBitStream [] (Some (list_inserts 0 [7; 7; 7; 7] (Buffer_alloc BUFFER_SIZE))) 4
       [Data (replicate 1022 0)]).
Proof.
  assert (Hwf : wf (mkBitStream [] (Some (Buffer_alloc BUFFER_SIZE)) 1022 [])).
  { split; [constructor|]. split; [simpl; lia|].
    exists (Buffer_alloc BUFFER_SIZE).
    split; [reflexivity|]. split; [reflexivity|]. simpl. unfold BUFFER_SIZE. lia. }
  assert (Hle : call_byteLength example_codec (CallFixed UInt32BE 117901063)
                <= BUFFER_SIZE)
    by (simpl; unfold BUFFER_SIZE; lia).
  destruct (aligned_write_flushes_when_full example_codec _ _ Hwf Hle)
    as (buf1 & _ & Hb1 & _ & Hrun & _).
  rewrite Hrun. injection Hb1 as <-. vm_compute. reflexivity.
Defined.

Lemma pending_bits_below_8_witness :
  (length (bits (mkBitStream [] (Some (<[0%nat := 48%Z]> (Buffer_alloc BUFFER_SIZE)))
                   1%Z []))
   < 8)%nat
  /\ (aligns (@CallAlign Z unit) = true ->
      bits (mkBitStream [] (Some (<[0%nat := 48]> (Buffer_alloc BUFFER_SIZE))) 1 []) = []).
Proof.
  apply (pending_bits_below_8 example_codec CallAlign
           (mkBitStream (str "0011") (Some (Buffer_alloc BUFFER_SIZE)) 0 [])).
  - simpl. lia.
  - vm_compute. reflexivity.
Defined.

Lemma end_emits_final_chunk_and_finish_witness :
  run end_ new_BitStream = (inr tt, mkBitStream [] None 0 [Data []; Finish]).
Proof.
  destruct (end_emits_final_chunk_and_finish example_codec new_BitStream
              example_codec_sound (reachable_new example_codec))
    as (buf & chunk & _ & Hrun & _ & Hempty).
  rewrite Hrun, (Hempty eq_refl). reflexivity.
Defined.

(** C8, as the spec has it, fails: after 8192 zero bits and one more
    bit the buffer is full with a bit pending, and [end] emits two
    chunks, the full buffer and then the padded byte, before the
    completion signal. *)
Lemma end_can_emit_two_chunks :
  reachable example_codec full_with_pending
  /\ run end_ full_with_pending
     = (inr tt, mkBitStream [] None 0
                  [Data (Buffer_alloc BUFFER_SIZE); Data [128]; Finish])
  /\ ~ end_emits_one_chunk full_with_pending.
Proof.
  assert (Hrun : run end_ full_with_pending
                 = (inr tt, mkBitStream [] None 0
                              [Data (Buffer_alloc BUFFER_SIZE); Data [128]; Finish]))
    by (vm_compute; reflexivity).
  split; [|split; [exact Hrun|]].
  - apply (reachable_call example_codec (CallWriteStringBits (str "1"))
             (mkBitStream [] (Some (Buffer_alloc BUFFER_SIZE)) BUFFER_SIZE [])
             (inr tt));
      [|discriminate|vm_compute; reflexivity].
    apply (reachable_call example_codec
             (CallWriteStringBits (replicate (Z.to_nat 8192) "0"%char))
             new_BitStream (inr tt));
      [apply reachable_new|discriminate|vm_compute; reflexivity].
  - intros (chunk & s' & Hrun' & _ & Hem).
    rewrite Hrun in Hrun'. injection Hrun' as <-.
    cbn [emitted full_with_pending app] in Hem. discriminate.
Qed.

(** C1 holds for bit lengths 1 to 32 ([writeIntBits_stream_bits]) and
    fails on the code at bit length 0: [writeIntBits(5, 0)] on a new
    writer writes all 32 digits of 5, four bytes, where no bit should be
    written. *)
Theorem writeIntBits_zero_length_writes_32_bits :
  run (writeIntBits 5 0) new_BitStream
  = (inr tt,
     mkBitStream [] (Some (list_inserts 0 [0; 0; 0; 5] (Buffer_alloc BUFFER_SIZE))) 4 [])
  /\ stream_bits (run (writeIntBits 5 0) new_BitStream).2 = low_bits 5 32.
Proof. split; vm_compute; reflexivity. Qed.

(** C2 fails on the code when no bit is pending: on a new writer
    [writeStringBits('')] throws a [TypeError], because [match] returns
    [null]; and [writeIntBits(-1, 0)] never passes the empty string: it
    writes four bytes 0xFF.  With bits pending the empty string is a
    no-op ([writeStringBits_empty_pending]). *)
Theorem writeStringBits_empty_string_throws :
  run (writeStringBits []) new_BitStream = (inl PlatformTypeError, new_BitStream)
  /\ run (writeIntBits (-1) 0) new_BitStream
     = (inr tt,
        mkBitStream []
          (Some (list_inserts 0 [255; 255; 255; 255] (Buffer_alloc BUFFER_SIZE))) 4 []).
Proof. split; vm_compute; reflexivity. Qed.

(** * Further properties of the class *)

(** ** Counting bits and bytes *)

Lemma concat_byte_digits_length (bytes : list Z) :
  length (concat (map byte_digits bytes)) = (8 * length bytes)%nat.
Proof.
  induction bytes as [|v bytes IH]; [reflexivity|].
  cbn [map concat length]. rewrite length_app, IH.
  unfold byte_digits. rewrite low_bits_length. lia.
Qed.

Lemma stream_bits_length s :
  length (stream_bits s) = (8 * length (written s) + length (bits s))%nat.
Proof.
  unfold stream_bits. now rewrite length_app, concat_byte_digits_length.
Qed.

Lemma concat_bytes_length (bytes : list jsstring) :
  Forall (fun byte => bits_valid byte /\ length byte = 8%nat) bytes ->
  length (concat bytes) = (8 * length bytes)%nat.
Proof.
  induction 1 as [|m ms [_ H8] _ IH]; [reflexivity|].
  cbn [concat length]. rewrite length_app, IH, H8. lia.
Qed.

Lemma complete_bytes_count total :
  bits_valid total -> length (complete_bytes total) = (length total / 8)%nat.
Proof.
  intros Hv. pose proof (complete_leftover_partition total Hv) as Hpart.
  apply (f_equal (@length ascii)) in Hpart. rewrite length_app in Hpart.
  pose proof (concat_bytes_length _ (complete_bytes_valid total Hv)) as Hc.
  pose proof (leftover_bits_length total) as Hl.
  apply (Nat.div_unique _ 8 _ (length (leftover_bits total))); lia.
Qed.

(** ** Where [writeStringBits] stores the bytes *)

Lemma put_byte_with_bits v b s :
  put_byte v (with_bits b s) = with_bits b (put_byte v s).
Proof.
  unfold put_byte, with_bits. cbn [buffer offset emitted bits].
  destruct (buffer s) eqn:Hb; [|now rewrite Hb].
  destruct (offset s =? BUFFER_SIZE); reflexivity.
Qed.

Lemma put_bytes_with_bits vs b : forall s,
  put_bytes vs (with_bits b s) = with_bits b (put_bytes vs s).
Proof.
  induction vs as [|v vs IH]; intros s; [reflexivity|].
  cbn [put_bytes fold_left]. rewrite put_byte_with_bits. apply IH.
Qed.

Lemma put_bytes_app vs ws s :
  put_bytes (vs ++ ws) s = put_bytes ws (put_bytes vs s).
Proof. unfold put_bytes. apply fold_left_app. Qed.

Lemma wrote_with_bits value s :
  wrote value s
  = with_bits (leftover_bits (bits s ++ value))
      (put_bytes (map binary_value (complete_bytes (bits s ++ value))) s).
Proof. reflexivity. Qed.

(** While the bytes fit below the capacity nothing is handed
    downstream. *)
Lemma put_bytes_room vs : forall s,
  buffer_ok s -> offset s + Z.of_nat (length vs) <= BUFFER_SIZE ->
  emitted (put_bytes vs s) = emitted s
  /\ offset (put_bytes vs s) = offset s + Z.of_nat (length vs).
Proof.
  induction vs as [|v vs IH]; intros s Hok Hroom.
  - cbn. split; [reflexivity | lia].
  - cbn [put_bytes fold_left length] in *.
    destruct (IH (put_byte v s)) as [Hem Hoff].
    + now apply put_byte_buffer_ok.
    + destruct Hok as (buf & Hb & _ & _). unfold put_byte. rewrite Hb.
      destruct (Z.eqb_spec (offset s) BUFFER_SIZE); cbn [offset]; lia.
    + unfold put_bytes in *. rewrite Hem, Hoff.
      destruct Hok as (buf & Hb & _ & _). unfold put_byte. rewrite Hb.
      destruct (Z.eqb_spec (offset s) BUFFER_SIZE); [lia|].
      cbn [offset emitted]. split; [reflexivity | lia].
Qed.

(** What is handed downstream is always a full buffer. *)
Lemma put_bytes_full_chunks vs : forall s,
  buffer_ok s ->
  exists chunks,
    emitted (put_bytes vs s) = emitted s ++ map Data chunks
    /\ Forall (fun chunk => Z.of_nat (length chunk) = BUFFER_SIZE) chunks.
Proof.
  induction vs as [|v vs IH]; intros s Hok.
  - exists []. cbn. split; [now rewrite app_nil_r | constructor].
  - cbn [put_bytes fold_left].
    destruct (IH (put_byte v s) (put_byte_buffer_ok v s Hok)) as (chunks & Hem & Hall).
    unfold put_bytes in Hem. rewrite Hem.
    destruct Hok as (buf & Hb & Hl & Ho). unfold put_byte. rewrite Hb.
    destruct (Z.eqb_spec (offset s) BUFFER_SIZE) as [E|E]; cbn [emitted].
    + exists (buf :: chunks). split.
      * rewrite E, Buffer_slice_prefix by (unfold BUFFER_SIZE; lia).
        rewrite take_ge by lia. now rewrite <- app_assoc.
      * now constructor.
    + exists chunks. auto.
Qed.

(** X1: on a well-formed writer, [writeStringBits] of a string of binary
    digits returns (unless there is nothing pending and nothing to
    write), keeps the writer well formed, and adds the digits of the
    string, in order and nothing else, to the bits written so far. *)
Theorem writeStringBits_appends_bits (value : jsstring) (s : BitStream) :
  wf s -> bits_valid value -> bits s ++ value <> [] ->
  exists s',
    run (writeStringBits value) s = (inr tt, s')
    /\ wf s'
    /\ stream_bits s' = stream_bits s ++ value.
Proof.
  intros Hwf Hv Hne. exists (wrote value s). split; [|split].
  - now apply writeStringBits_run.
  - now apply wrote_wf.
  - now apply wrote_stream_bits.
Qed.

Ltac concrete_wf :=
  split; [repeat constructor|]; split; [simpl; lia|];
  eexists; split; [reflexivity|]; split; [reflexivity|];
  simpl; unfold BUFFER_SIZE; lia.

Lemma writeStringBits_appends_bits_witness :
  exists s',
    run (writeStringBits (str "0011010"))
        (mkBitStream (str "101") (Some (Buffer_alloc BUFFER_SIZE)) 0 []) = (inr tt, s')
    /\ wf s'
    /\ stream_bits s'
       = stream_bits (mkBitStream (str "101") (Some (Buffer_alloc BUFFER_SIZE)) 0 [])
         ++ str "0011010".
Proof.
  apply writeStringBits_appends_bits.
  - concrete_wf.
  - repeat constructor.
  - discriminate.
Defined.

Lemma wrote_counts value s :
  wf s -> bits_valid value ->
  length (written (wrote value s))
  = (length (written s) + (length (bits s) + length value) / 8)%nat
  /\ length (bits (wrote value s))
     = ((length (bits s) + length value) mod 8)%nat.
Proof.
  intros Hwf Hv.
  pose proof (wrote_stream_bits value s Hwf Hv) as Hs.
  apply (f_equal (@length ascii)) in Hs.
  rewrite length_app, !stream_bits_length in Hs.
  pose proof (wrote_wf value s Hwf Hv) as (_ & Hlen & _).
  destruct Hwf as (_ & Hlen0 & _).
  set (w' := length (written (wrote value s))) in *.
  set (b' := length (bits (wrote value s))) in *.
  set (w := length (written s)) in *.
  set (n := (length (bits s) + length value)%nat).
  assert (Hn : (n = 8 * (w' - w) + b')%nat) by (unfold n; lia).
  split.
  - assert ((w' - w)%nat = (n / 8)%nat)
      by (apply (Nat.div_unique n 8 (w' - w) b'); lia).
    lia.
  - apply (Nat.mod_unique n 8 (w' - w) b'); lia.
Qed.

(** X2: after such a call the number of complete bytes written has
    grown by the number of whole groups of 8 among the pending bits and
    the string, and the bits left over are pending. *)
Theorem writeStringBits_counts (value : jsstring) (s : BitStream) :
  wf s -> bits_valid value -> bits s ++ value <> [] ->
  length (written (run (writeStringBits value) s).2)
  = (length (written s) + (length (bits s) + length value) / 8)%nat
  /\ length (bits (run (writeStringBits value) s).2)
     = ((length (bits s) + length value) mod 8)%nat.
Proof.
  intros Hwf Hv Hne. rewrite (writeStringBits_run value s Hwf Hv Hne). cbn [snd].
  now apply wrote_counts.
Qed.

Lemma writeStringBits_counts_witness :
  length (written (run (writeStringBits (str "00110100111"))
                     (mkBitStream (str "101") (Some (Buffer_alloc BUFFER_SIZE)) 0 [])).2)
  = (length (written (mkBitStream (str "101") (Some (Buffer_alloc BUFFER_SIZE)) 0 []))
     + (length (str "101") + length (str "00110100111")) / 8)%nat
  /\ length (bits (run (writeStringBits (str "00110100111"))
                     (mkBitStream (str "101") (Some (Buffer_alloc BUFFER_SIZE)) 0 [])).2)
     = ((length (str "101") + length (str "00110100111")) mod 8)%nat.
Proof.
  apply (writeStringBits_counts (str "00110100111")
           (mkBitStream (str "101") (Some (Buffer_alloc BUFFER_SIZE)) 0 [])).
  - concrete_wf.
  - repeat constructor.
  - discriminate.
Defined.

(** X3: incomplete bytes are not written: when the pending bits and the
    string together are fewer than 8 bits, [writeStringBits] only
    extends the pending bits; buffer, write head and emitted chunks are
    untouched. *)
Theorem writeStringBits_incomplete_byte (value : jsstring) (s : BitStream) :
  wf s -> bits_valid value -> bits s ++ value <> [] ->
  (length (bits s) + length value < 8)%nat ->
  run (writeStringBits value) s
  = (inr tt, mkBitStream (bits s ++ value) (buffer s) (offset s) (emitted s)).
Proof.
  intros Hwf Hv Hne Hshort. rewrite (writeStringBits_run value s Hwf Hv Hne).
  f_equal. unfold wrote, complete_bytes, leftover_bits.
  destruct Hwf as (Hbits & _ & _).
  rewrite (match_dot_1_8_short (bits s ++ value) []).
  - cbn [app].
    rewrite (filter_cons_False (fun m : jsstring => length m = 8%nat))
      by (rewrite length_app; lia).
    rewrite (filter_cons_True (fun m : jsstring => length m ≠ 8%nat))
      by (rewrite length_app; lia).
    rewrite !filter_nil. reflexivity.
  - apply bits_valid_no_terminator, bits_valid_app. auto.
  - cbn [app]. rewrite length_app. lia.
  - exact Hne.
Qed.

Lemma writeStringBits_incomplete_byte_witness :
  run (writeStringBits (str "0011"))
      (mkBitStream (str "101") (Some (Buffer_alloc BUFFER_SIZE)) 5 [Data [7]])
  = (inr tt,
     mkBitStream (str "1010011") (Some (Buffer_alloc BUFFER_SIZE)) 5 [Data [7]]).
Proof.
  apply (writeStringBits_incomplete_byte (str "0011")
           (mkBitStream (str "101") (Some (Buffer_alloc BUFFER_SIZE)) 5 [Data [7]])).
  - concrete_wf.
  - repeat constructor.
  - discriminate.
  - simpl. lia.
Defined.

(** X4: [writeStringBits] hands the buffer downstream only when it is
    full: every chunk it emits has 1024 bytes, and while the complete
    bytes fit below the capacity it emits nothing and advances the write
    head by their number. *)
Theorem writeStringBits_flushes_full_buffers (value : jsstring) (s : BitStream) :
  wf s -> bits_valid value -> bits s ++ value <> [] ->
  let s' := (run (writeStringBits value) s).2 in
  let k := Z.of_nat ((length (bits s) + length value) / 8) in
  (exists chunks,
     emitted s' = emitted s ++ map Data chunks
     /\ Forall (fun chunk => Z.of_nat (length chunk) = BUFFER_SIZE) chunks)
  /\ (offset s + k <= BUFFER_SIZE ->
      emitted s' = emitted s /\ offset s' = offset s + k).
Proof.
  intros Hwf Hv Hne. cbn zeta.
  rewrite (writeStringBits_run value s Hwf Hv Hne). cbn [snd].
  pose proof Hwf as (Hbits & _ & Hok).
  assert (Htotal : bits_valid (bits s ++ value)) by (apply bits_valid_app; auto).
  unfold wrote. cbn [emitted offset]. split.
  - now apply put_bytes_full_chunks.
  - intros Hroom.
    assert (Hk : length (map binary_value (complete_bytes (bits s ++ value)))
                 = ((length (bits s) + length value) / 8)%nat)
      by now rewrite length_map, complete_bytes_count, length_app.
    rewrite <- Hk in *. now apply put_bytes_room.
Qed.

Lemma writeStringBits_flushes_full_buffers_witness :
  let s := mkBitStream (str "1") (Some (Buffer_alloc BUFFER_SIZE)) 1023 [] in
  let s' := (run (writeStringBits (str "0000000")) s).2 in
  (exists chunks,
     emitted s' = emitted s ++ map Data chunks
     /\ Forall (fun chunk => Z.of_nat (length chunk) = BUFFER_SIZE) chunks)
  /\ (offset s + Z.of_nat ((length (bits s) + length (str "0000000")) / 8) <= BUFFER_SIZE ->
      emitted s' = emitted s
      /\ offset s' = offset s + Z.of_nat ((length (bits s) + length (str "0000000")) / 8)).
Proof.
  apply (writeStringBits_flushes_full_buffers (str "0000000")
           (mkBitStream (str "1") (Some (Buffer_alloc BUFFER_SIZE)) 1023 [])).
  - concrete_wf.
  - repeat constructor.
  - discriminate.
Defined.

(** ** Splitting a bit string over several calls *)

Lemma match_dot_1_8_absorb cur : forall acc t,
  no_terminator cur -> (length (acc ++ cur) < 8)%nat ->
  match_dot_1_8 acc (cur ++ t) = match_dot_1_8 (acc ++ cur) t.
Proof.
  induction cur as [|c cur IH]; intros acc t Hcur Hlen.
  - now rewrite app_nil_r.
  - apply Forall_cons in Hcur. destruct Hcur as [Hc Hcur].
    cbn [app match_dot_1_8]. rewrite Hc.
    rewrite length_app in Hlen. cbn [length] in Hlen.
    destruct (Nat.eqb_spec (length (acc ++ [c])) 8) as [E|E].
    + rewrite length_app in E. cbn [length] in E. lia.
    + rewrite (IH (acc ++ [c])), <- app_assoc; auto.
      rewrite <- app_assoc, length_app. cbn [app length]. lia.
Qed.

Lemma match_dot_1_8_split s : forall cur t,
  no_terminator cur -> no_terminator s -> (length cur < 8)%nat ->
  filter (fun m => length m = 8%nat) (match_dot_1_8 cur (s ++ t))
  = filter (fun m => length m = 8%nat) (match_dot_1_8 cur s)
    ++ filter (fun m => length m = 8%nat)
         (match_dot_1_8 []
            (first_or_empty (filter (fun m => length m ≠ 8%nat) (match_dot_1_8 cur s))
             ++ t))
  /\ filter (fun m => length m ≠ 8%nat) (match_dot_1_8 cur (s ++ t))
     = filter (fun m => length m ≠ 8%nat)
         (match_dot_1_8 []
            (first_or_empty (filter (fun m => length m ≠ 8%nat) (match_dot_1_8 cur s))
             ++ t)).
Proof.
  induction s as [|c s IH]; intros cur t Hcur Hs Hlen.
  - cbn [app].
    assert (Hleft : first_or_empty
                      (filter (fun m : jsstring => length m ≠ 8%nat) (match_dot_1_8 cur []))
                    = cur).
    { cbn [match_dot_1_8]. destruct cur as [|x cur]; [reflexivity|].
      rewrite (filter_cons_True (fun m : jsstring => length m ≠ 8%nat)) by lia.
      reflexivity. }
    assert (Hcomp : filter (fun m : jsstring => length m = 8%nat) (match_dot_1_8 cur [])
                    = []).
    { cbn [match_dot_1_8]. destruct cur as [|x cur]; [reflexivity|].
      rewrite (filter_cons_False (fun m : jsstring => length m = 8%nat)) by lia.
      reflexivity. }
    rewrite Hleft, Hcomp, (match_dot_1_8_absorb cur [] t) by auto.
    split; reflexivity.
  - apply Forall_cons in Hs. destruct Hs as [Hc Hs].
    cbn [app match_dot_1_8]. rewrite Hc.
    destruct (Nat.eqb_spec (length (cur ++ [c])) 8) as [E|E].
    + destruct (IH [] t (Forall_nil_2 _) Hs ltac:(cbn; lia)) as [IH8 IHne].
      rewrite !(filter_cons_True (fun m : jsstring => length m = 8%nat)) by exact E.
      rewrite !(filter_cons_False (fun m : jsstring => length m ≠ 8%nat)) by (intros H; now apply H).
      rewrite IH8, IHne. split; reflexivity.
    + apply IH; auto.
      * apply Forall_app. split; [exact Hcur | now constructor].
      * rewrite length_app in *. cbn [length] in *. lia.
Qed.

Lemma wrote_split a b s :
  wf s -> bits_valid a -> bits_valid b ->
  wrote b (wrote a s) = wrote (a ++ b) s.
Proof.
  intros (Hbits & Hlen & _) Ha Hb.
  assert (Hno : no_terminator (bits s ++ a))
    by (apply bits_valid_no_terminator, bits_valid_app; auto).
  destruct (match_dot_1_8_split (bits s ++ a) [] b (Forall_nil_2 _) Hno
              ltac:(cbn; lia)) as [H8 Hne].
  rewrite (wrote_with_bits b), (wrote_with_bits a), (wrote_with_bits (a ++ b)).
  cbn [with_bits bits]. rewrite put_bytes_with_bits.
  unfold with_bits. cbn [buffer offset emitted].
  rewrite <- put_bytes_app, <- map_app.
  unfold complete_bytes, leftover_bits in *.
  rewrite app_assoc, H8, Hne. reflexivity.
Qed.

(** X5: a string of binary digits can be written in pieces: on a
    well-formed writer, [writeStringBits(a)] followed by
    [writeStringBits(b)] leaves the writer exactly as
    [writeStringBits(a + b)] does. *)
Theorem writeStringBits_in_pieces (a b : jsstring) (s : BitStream) :
  wf s -> bits_valid a -> bits_valid b -> a <> [] -> b <> [] ->
  run (writeStringBits a;; writeStringBits b) s = run (writeStringBits (a ++ b)) s.
Proof.
  intros Hwf Ha Hb Hane Hbne.
  assert (Hne1 : bits s ++ a <> []) by (intros H; apply app_eq_nil in H; tauto).
  assert (Hne2 : bits (wrote a s) ++ b <> []) by (intros H; apply app_eq_nil in H; tauto).
  assert (Hne3 : bits s ++ a ++ b <> []).
  { intros H. apply app_eq_nil in H. destruct H as [_ H].
    apply app_eq_nil in H. tauto. }
  rewrite (writeStringBits_run (a ++ b) s Hwf) by (auto; apply bits_valid_app; auto).
  unfold run, mbind, M_bind.
  pose proof (writeStringBits_run a s Hwf Ha Hne1) as H1. unfold run in H1.
  rewrite H1.
  pose proof (writeStringBits_run b (wrote a s) (wrote_wf a s Hwf Ha) Hb Hne2) as H2.
  unfold run in H2. rewrite H2. f_equal. now apply wrote_split.
Qed.

Lemma writeStringBits_in_pieces_witness :
  run (writeStringBits (str "00110");; writeStringBits (str "1011101"))
      (mkBitStream (str "101") (Some (Buffer_alloc BUFFER_SIZE)) 0 [])
  = run (writeStringBits (str "00110" ++ str "1011101"))
      (mkBitStream (str "101") (Some (Buffer_alloc BUFFER_SIZE)) 0 []).
Proof.
  apply writeStringBits_in_pieces.
  - concrete_wf.
  - repeat constructor.
  - repeat constructor.
  - discriminate.
  - discriminate.
Defined.

(** ** [writeIntBits] *)

(** X6: a bit length below 0 or above 32 makes [writeIntBits] throw its
    range error, the first for a negative length and the second for a
    length above 32, and the writer is as it was before the call. *)
Theorem writeIntBits_range_error (value bitLength : Z) (s : BitStream) :
  bitLength < 0 \/ 32 < bitLength ->
  run (writeIntBits value bitLength) s
  = (inl (if bitLength <? 0 then MinBitLength else MaxBitLength), s).
Proof.
  intros Hb. unfold writeIntBits.
  destruct (Z.ltb_spec bitLength 0) as [Hneg|Hpos]; [reflexivity|].
  replace (32 <? bitLength) with true by (symmetry; apply Z.ltb_lt; lia).
  reflexivity.
Qed.

Lemma writeIntBits_range_error_witness :
  run (writeIntBits 7 33) (mkBitStream (str "101") None 3 [Finish])
  = (inl MaxBitLength, mkBitStream (str "101") None 3 [Finish])
  /\ run (writeIntBits 7 (-1)) new_BitStream = (inl MinBitLength, new_BitStream).
Proof.
  split.
  - apply (writeIntBits_range_error 7 33). right. lia.
  - apply (writeIntBits_range_error 7 (-1)). left. lia.
Defined.

(** X7: for a signed 32-bit integer and a bit length from 1 to 32, on a
    well-formed writer, [writeIntBits] returns, keeps the writer well
    formed and adds exactly that many bits to the stream: the low bits
    of the integer in two's complement, most significant first. *)
Theorem writeIntBits_writes_low_bits (value bitLength : Z) (s : BitStream) :
  wf s -> - 2 ^ 31 <= value < 2 ^ 31 -> 1 <= bitLength <= 32 ->
  exists s',
    run (writeIntBits value bitLength) s = (inr tt, s')
    /\ wf s'
    /\ stream_bits s' = stream_bits s ++ low_bits value (Z.to_nat bitLength)
    /\ Z.of_nat (length (low_bits value (Z.to_nat bitLength))) = bitLength.
Proof.
  intros Hwf Hv Hb.
  destruct (writeIntBits_stream_bits value bitLength s Hwf Hv Hb)
    as (s' & Hrun & Hwf' & Hs).
  exists s'. split; [exact Hrun|]. split; [exact Hwf'|]. split; [exact Hs|].
  rewrite low_bits_length. lia.
Qed.

Lemma writeIntBits_writes_low_bits_witness :
  exists s',
    run (writeIntBits (-3) 8) new_BitStream = (inr tt, s')
    /\ wf s'
    /\ stream_bits s' = stream_bits new_BitStream ++ low_bits (-3) (Z.to_nat 8)
    /\ Z.of_nat (length (low_bits (-3) (Z.to_nat 8))) = 8.
Proof.
  apply writeIntBits_writes_low_bits.
  - concrete_wf.
  - simpl. lia.
  - lia.
Defined.

(** ** [writeArrayBits] *)

(** [Number_toString] on integers below and above 2^53 and 10^21. *)
Example Number_toString_examples :
  map Number_toString
    [0; 101; -3; 9007199254740993; 2 ^ 64; 10 ^ 21 - 1; 10 ^ 21; 2 ^ 70; - 10 ^ 23]
  = map str
      ["0"; "101"; "-3"; "9007199254740992"; "18446744073709552000"; "1e+21";
       "1e+21"; "1.1805916207174113e+21"; "-1e+23"]%string.
Proof. vm_compute. reflexivity. Qed.

Lemma Number_toString_bit v : v = 0 \/ v = 1 -> Number_toString v = [bit_digit v].
Proof. intros [-> | ->]; reflexivity. Qed.

Lemma join_bits (value : list Z) :
  Forall (fun v => v = 0 \/ v = 1) value ->
  concat (map Number_toString value) = map bit_digit value.
Proof.
  induction 1 as [|v value Hv _ IH]; [reflexivity|].
  cbn [map concat]. now rewrite IH, Number_toString_bit.
Qed.

Lemma bit_digit_valid (value : list Z) : bits_valid (map bit_digit value).
Proof.
  apply Forall_forall. intros c Hc.
  apply list_elem_of_In, in_map_iff in Hc. destruct Hc as (v & <- & _).
  unfold bit_digit. now destruct (v =? 1).
Qed.

(** X8: on a well-formed writer, [writeArrayBits] of a non-empty array
    of values 0 and 1 returns, keeps the writer well formed and adds one
    bit per value, in order, to the stream. *)
Theorem writeArrayBits_appends_bits (value : list Z) (s : BitStream) :
  wf s -> Forall (fun v => v = 0 \/ v = 1) value -> value <> [] ->
  exists s',
    run (writeArrayBits value) s = (inr tt, s')
    /\ wf s'
    /\ stream_bits s' = stream_bits s ++ map bit_digit value.
Proof.
  intros Hwf Hall Hne. unfold writeArrayBits. rewrite (join_bits value Hall).
  exists (wrote (map bit_digit value) s). split; [|split].
  - apply writeStringBits_run; auto using bit_digit_valid.
    intros H. apply app_eq_nil in H. destruct H as [_ H].
    apply map_eq_nil in H. contradiction.
  - apply wrote_wf; auto using bit_digit_valid.
  - apply wrote_stream_bits; auto using bit_digit_valid.
Qed.

Lemma writeArrayBits_appends_bits_witness :
  exists s',
    run (writeArrayBits [0; 0; 0; 1; 1; 0; 0; 0]) new_BitStream = (inr tt, s')
    /\ wf s'
    /\ stream_bits s'
       = stream_bits new_BitStream ++ map bit_digit [0; 0; 0; 1; 1; 0; 0; 0].
Proof.
  apply writeArrayBits_appends_bits.
  - concrete_wf.
  - repeat (apply Forall_cons; split; [auto|]). apply Forall_nil_2.
  - discriminate.
Defined.

Lemma Number_toString_not_bit v :
  v < 0 \/ 2 <= v <= 9 ->
  exists c, In c (Number_toString v) /\ is_bit c = false.
Proof.
  intros [Hneg|Hdigit].
  - destruct v as [|p|p]; try lia.
    exists "-"%char. split; [left; reflexivity | reflexivity].
  - assert (Hcases : v = 2 \/ v = 3 \/ v = 4 \/ v = 5 \/ v = 6 \/ v = 7
                     \/ v = 8 \/ v = 9) by lia.
    repeat destruct Hcases as [-> | Hcases]; try subst v;
      (eexists; split; [left; reflexivity | reflexivity]).
Qed.

(** X9: an array holding a negative integer or an integer from 2 to 9
    makes [writeArrayBits] throw the format error of [writeStringBits],
    and the writer is as it was before the call. *)
Theorem writeArrayBits_invalid_value (value : list Z) (s : BitStream) :
  (exists v, In v value /\ (v < 0 \/ 2 <= v <= 9)) ->
  run (writeArrayBits value) s
  = (inl (InvalidFormat (concat (map Number_toString value))), s).
Proof.
  intros (v & Hin & Hv). unfold writeArrayBits, writeStringBits.
  destruct (Number_toString_not_bit v Hv) as (c & Hc & Hbit).
  assert (Htest : test_non_bit (concat (map Number_toString value)) = true).
  { unfold test_non_bit. apply existsb_exists. exists c. split; [|now rewrite Hbit].
    apply in_concat. exists (Number_toString v). split; [|exact Hc].
    apply in_map. exact Hin. }
  rewrite Htest. reflexivity.
Qed.

Lemma writeArrayBits_invalid_value_witness :
  run (writeArrayBits [0; 2; - 10 ^ 21]) new_BitStream
  = (inl (InvalidFormat (str "02-1e+21")), new_BitStream).
Proof.
  apply (writeArrayBits_invalid_value [0; 2; - 10 ^ 21] new_BitStream).
  exists (- 10 ^ 21). split; [simpl; auto | left; lia].
Defined.

(** ** [flush], [align] and the guard *)

Lemma flushed_written buf s :
  buffer s = Some buf -> 0 <= offset s -> written (flushed buf s) = written s.
Proof.
  intros Hb Ho. unfold written at 1, flushed. cbn [emitted buffer offset].
  rewrite emitted_bytes_data. unfold written. rewrite Hb.
  rewrite (Buffer_slice_prefix (Buffer_alloc BUFFER_SIZE) 0) by lia.
  change (Z.to_nat 0) with 0%nat. rewrite take_0. apply app_nil_r.
Qed.

Lemma flushed_stream_bits buf s :
  buffer s = Some buf -> 0 <= offset s -> stream_bits (flushed buf s) = stream_bits s.
Proof.
  intros Hb Ho. unfold stream_bits. now rewrite flushed_written.
Qed.

(** X10: with the buffer present, [flush] returns; it emits one chunk,
    the bytes below the write head (none when the write head is 0),
    replaces the buffer by a zeroed one and resets the write head; the
    pending bits stay pending, and no byte or bit written so far is lost
    or repeated. *)
Theorem flush_emits_whole_bytes (s : BitStream) (buf : list Z) :
  buffer s = Some buf -> 0 <= offset s ->
  run flush s
  = (inr tt,
     mkBitStream (bits s) (Some (Buffer_alloc BUFFER_SIZE)) 0
       (emitted s ++ [Data (take (Z.to_nat (offset s)) buf)]))
  /\ written (run flush s).2 = written s
  /\ stream_bits (run flush s).2 = stream_bits s.
Proof.
  intros Hb Ho. rewrite (flush_run s buf Hb). cbn [snd].
  split; [|split].
  - unfold flushed. now rewrite Buffer_slice_prefix.
  - now apply flushed_written.
  - now apply flushed_stream_bits.
Qed.

Lemma flush_emits_whole_bytes_witness :
  run flush (mkBitStream (str "101") (Some [7; 8; 9; 0]) 2 [Data [1]])
  = (inr tt,
     mkBitStream (str "101") (Some (Buffer_alloc BUFFER_SIZE)) 0 [Data [1]; Data [7; 8]]).
Proof.
  destruct (flush_emits_whole_bytes
              (mkBitStream (str "101") (Some [7; 8; 9; 0]) 2 [Data [1]])
              [7; 8; 9; 0] eq_refl ltac:(simpl; lia)) as [Hrun _].
  exact Hrun.
Defined.

Lemma align_nothing_pending s : bits s = [] -> run align s = (inr tt, s).
Proof.
  intros Hb. unfold align, run, mbind, M_bind, get_bits. now rewrite Hb.
Qed.

(** X11: aligning twice is aligning once, from any state: after [align]
    returns nothing is pending, so a second [align] changes nothing; and
    if the first throws, nothing more is run. *)
Theorem align_twice (s : BitStream) : run (align;; align) s = run align s.
Proof.
  unfold run, mbind, M_bind.
  destruct (align s) as [[e|[]] s1] eqn:E; [reflexivity|].
  apply align_nothing_pending. exact (returns_aligned_align s tt s1 E).
Qed.

(** The guard pads the pending bits into the stream and loses
    nothing. *)
Lemma aligned_stream_bits_padding s :
  wf s -> stream_bits (aligned s) = stream_bits s ++ padding_of (bits s).
Proof.
  intros Hwf. destruct (bits s) as [|c b] eqn:Eb.
  - unfold aligned. rewrite Eb. cbn [padding_of]. now rewrite app_nil_r.
  - rewrite <- Eb. rewrite aligned_stream_bits by (auto; congruence).
    rewrite Eb. reflexivity.
Qed.

(** X12: on a well-formed writer the guard of the aligned writes, for a
    byte length within the capacity, returns with no bit pending; the
    bits written so far are all still there, followed by the zero
    padding of the pending bits and by nothing else. *)
Theorem beforeWriteAligned_keeps_stream (byteLength : Z) (s : BitStream) :
  wf s -> byteLength <= BUFFER_SIZE ->
  exists s',
    run (beforeWriteAligned byteLength) s = (inr tt, s')
    /\ bits s' = []
    /\ stream_bits s' = stream_bits s ++ padding_of (bits s).
Proof.
  intros Hwf Hle.
  destruct (beforeWriteAligned_run byteLength s Hwf Hle) as (buf & Hb & Hrun).
  destruct (aligned_wf s Hwf) as (_ & _ & buf' & Hb' & _ & Ho).
  eexists. split; [exact Hrun|].
  destruct (BUFFER_SIZE <=? offset (aligned s) + byteLength).
  - split; [apply aligned_bits|].
    rewrite flushed_stream_bits by (auto; lia).
    now apply aligned_stream_bits_padding.
  - split; [apply aligned_bits | now apply aligned_stream_bits_padding].
Qed.

Lemma beforeWriteAligned_keeps_stream_witness :
  exists s',
    run (beforeWriteAligned 4)
        (mkBitStream (str "101") (Some (Buffer_alloc BUFFER_SIZE)) 1022 []) = (inr tt, s')
    /\ bits s' = []
    /\ stream_bits s'
       = stream_bits (mkBitStream (str "101") (Some (Buffer_alloc BUFFER_SIZE)) 1022 [])
         ++ padding_of (str "101").
Proof.
  apply (beforeWriteAligned_keeps_stream 4
           (mkBitStream (str "101") (Some (Buffer_alloc BUFFER_SIZE)) 1022 [])).
  - concrete_wf.
  - unfold BUFFER_SIZE. lia.
Defined.

(** ** What is handed downstream *)

Lemma emits_chunks_keeps {A} (m : M A) :
  (forall s r s', m s = (r, s') -> emitted s' = emitted s) -> emits_chunks m.
Proof.
  intros Hm s r s' H. exists []. cbn [map]. rewrite app_nil_r. eauto.
Qed.

Lemma emits_chunks_bind {A B} (m : M A) (f : A -> M B) :
  emits_chunks m -> (forall x, emits_chunks (f x)) -> emits_chunks (m ≫= f).
Proof.
  intros Hm Hf s r s' H. unfold mbind, M_bind in H.
  destruct (m s) as [[e|x] s1] eqn:E.
  - injection H as _ <-. exact (Hm _ _ _ E).
  - destruct (Hm _ _ _ E) as (c1 & H1). destruct (Hf x _ _ _ H) as (c2 & H2).
    exists (c1 ++ c2). now rewrite H2, H1, map_app, app_assoc.
Qed.

Lemma emits_chunks_ret {A} (x : A) : emits_chunks (mret x).
Proof. apply emits_chunks_keeps. now intros s r s' [= _ <-]. Qed.

Lemma emits_chunks_throw {A} e : emits_chunks (@throw A e).
Proof. apply emits_chunks_keeps. now intros s r s' [= _ <-]. Qed.

Lemma emits_chunks_lift {A} (v : exn + A) : emits_chunks (lift v).
Proof. apply emits_chunks_keeps. now intros s r s' [= _ <-]. Qed.

Lemma emits_chunks_get_bits : emits_chunks get_bits.
Proof. apply emits_chunks_keeps. now intros s r s' [= _ <-]. Qed.

Lemma emits_chunks_set_bits b : emits_chunks (set_bits b).
Proof. apply emits_chunks_keeps. now intros s r s' [= _ <-]. Qed.

Lemma emits_chunks_get_offset : emits_chunks get_offset.
Proof. apply emits_chunks_keeps. now intros s r s' [= _ <-]. Qed.

Lemma emits_chunks_set_offset o : emits_chunks (set_offset o).
Proof. apply emits_chunks_keeps. now intros s r s' [= _ <-]. Qed.

Lemma emits_chunks_get_buffer : emits_chunks get_buffer.
Proof.
  apply emits_chunks_keeps. intros s r s' H. unfold get_buffer in H.
  destruct (buffer s); now injection H as _ <-.
Qed.

Lemma emits_chunks_set_buffer b : emits_chunks (set_buffer b).
Proof. apply emits_chunks_keeps. now intros s r s' [= _ <-]. Qed.

Lemma emits_chunks_emit_data chunk : emits_chunks (emit (Data chunk)).
Proof. intros s r s' [= _ <-]. now exists [chunk]. Qed.

Create HintDb chunks_db.

#[local] Hint Resolve emits_chunks_ret emits_chunks_throw emits_chunks_lift
  emits_chunks_get_bits emits_chunks_set_bits emits_chunks_get_offset
  emits_chunks_set_offset emits_chunks_get_buffer emits_chunks_set_buffer
  emits_chunks_emit_data : chunks_db.

Ltac emits_chunks_steps :=
  repeat first
    [ apply emits_chunks_bind; [|intros ?]
    | match goal with |- emits_chunks (if ?c then _ else _) => destruct c end
    | match goal with |- emits_chunks (match ?c with _ => _ end) => destruct c end
    | solve [auto with chunks_db] ].

Lemma emits_chunks_flush : emits_chunks flush.
Proof. unfold flush. emits_chunks_steps. Qed.

#[local] Hint Resolve emits_chunks_flush : chunks_db.

Lemma emits_chunks_write_complete_byte byte : emits_chunks (write_complete_byte byte).
Proof. unfold write_complete_byte. emits_chunks_steps. Qed.

Lemma emits_chunks_for_of {A} (xs : list A) (body : A -> M unit) :
  (forall x, emits_chunks (body x)) -> emits_chunks (for_of xs body).
Proof.
  intros Hbody. induction xs as [|x xs IH]; cbn [for_of].
  - apply emits_chunks_ret.
  - apply emits_chunks_bind; auto.
Qed.

Lemma emits_chunks_writeStringBits value : emits_chunks (writeStringBits value).
Proof.
  unfold writeStringBits. destruct (test_non_bit value); [apply emits_chunks_throw|].
  apply emits_chunks_bind; [apply emits_chunks_get_bits|]. intros b.
  destruct (String_match (b ++ value)); [|apply emits_chunks_throw].
  apply emits_chunks_bind; [|intros ?; apply emits_chunks_set_bits].
  apply emits_chunks_for_of, emits_chunks_write_complete_byte.
Qed.

#[local] Hint Resolve emits_chunks_writeStringBits : chunks_db.

Lemma emits_chunks_align : emits_chunks align.
Proof. unfold align. emits_chunks_steps. Qed.

#[local] Hint Resolve emits_chunks_align : chunks_db.

Lemma emits_chunks_writeIntBits value bitLength :
  emits_chunks (writeIntBits value bitLength).
Proof. unfold writeIntBits. emits_chunks_steps. Qed.

Lemma emits_chunks_beforeWriteAligned byteLength :
  emits_chunks (beforeWriteAligned byteLength).
Proof. unfold beforeWriteAligned. emits_chunks_steps. Qed.

(** ** Every public method, for any codec *)

Section PublicMethods.

Context {number encoding : Type} (codec : BufferCodec number encoding).

Lemma emits_chunks_call_delegate (c : aligned_call) :
  emits_chunks (call_delegate codec c).
Proof.
  destruct c; cbn [call_delegate];
    unfold delegate_write, delegate_fixed, delegate_variable; emits_chunks_steps.
Qed.

Lemma emits_chunks_run_aligned (c : aligned_call) :
  emits_chunks (run_aligned codec c).
Proof.
  rewrite run_aligned_guard.
  apply emits_chunks_bind; [apply emits_chunks_beforeWriteAligned|].
  intros _. apply emits_chunks_call_delegate.
Qed.

(** X14: whatever public method is called, from any state and whether
    it returns or throws, the events already emitted stay as they are
    and only chunks are added after them; the completion signal is added
    only by [end], only when [end] returns, and after the chunks. *)
Theorem calls_only_append_events (c : call) (s s' : BitStream) (r : exn + unit) :
  run (run_call codec c) s = (r, s') ->
  exists chunks,
    emitted s'
    = emitted s ++ map Data chunks
      ++ match c, r with
         | CallEnd, inr _ => [Finish]
         | _, _ => []
         end.
Proof.
  intros Hrun. unfold run in Hrun.
  assert (Hplain : emits_chunks (run_call codec c) ->
                   exists chunks, emitted s' = emitted s ++ map Data chunks ++ []).
  { intros Hm. destruct (Hm s r s' Hrun) as (chunks & H).
    exists chunks. now rewrite app_nil_r. }
  destruct c; cbn [run_call] in *;
    try (apply Hplain;
         first [ apply emits_chunks_align | apply emits_chunks_flush
               | apply emits_chunks_writeStringBits | apply emits_chunks_writeIntBits
               | apply emits_chunks_run_aligned ]).
  clear Hplain. unfold end_, mbind, M_bind in Hrun.
  destruct (align s) as [[e|[]] s1] eqn:Ea.
  - injection Hrun as <- <-. destruct (emits_chunks_align _ _ _ Ea) as (c1 & H1).
    exists c1. now rewrite app_nil_r.
  - destruct (emits_chunks_align _ _ _ Ea) as (c1 & H1).
    destruct (flush s1) as [[e|[]] s2] eqn:Ef.
    + injection Hrun as <- <-. destruct (emits_chunks_flush _ _ _ Ef) as (c2 & H2).
      exists (c1 ++ c2). now rewrite H2, H1, map_app, app_nil_r, app_assoc.
    + destruct (emits_chunks_flush _ _ _ Ef) as (c2 & H2).
      unfold emit, set_buffer in Hrun. injection Hrun as <- <-.
      exists (c1 ++ c2). cbn [emitted].
      now rewrite H2, H1, map_app, <- !app_assoc.
Qed.

(** X15: as long as [end] has not been called, and with a codec that
    keeps the size of the buffer and reports a write head inside it, the
    writer keeps its invariants: the pending bits are fewer than 8
    binary digits, the buffer is present with its 1024 bytes, and the
    write head is between 0 and 1024. *)
Theorem writer_keeps_invariants (s : BitStream) :
  codec_sound codec -> reachable codec s ->
  Forall (fun c => c = "0"%char \/ c = "1"%char) (bits s)
  /\ (length (bits s) < 8)%nat
  /\ exists buf,
       buffer s = Some buf
       /\ Z.of_nat (length buf) = 1024
       /\ 0 <= offset s <= 1024.
Proof.
  intros Hsound Hreach.
  destruct (reachable_wf codec Hsound s Hreach) as (Hbits & Hlen & Hbuf).
  split; [|split; [exact Hlen | exact Hbuf]].
  eapply Forall_impl; [exact Hbits|]. intros c Hc. now apply is_bit_cases.
Qed.

(** X16: [end] closes the writer: after it returns on a well-formed
    writer, a second [end], a [flush] and every aligned write whose byte
    length is within the capacity throw a [TypeError] and change
    nothing; no second completion signal is emitted. *)
Theorem ended_writer_throws (c : aligned_call) (s : BitStream) :
  wf s -> call_byteLength codec c <= BUFFER_SIZE ->
  exists s1,
    run end_ s = (inr tt, s1)
    /\ run end_ s1 = (inl PlatformTypeError, s1)
    /\ run flush s1 = (inl PlatformTypeError, s1)
    /\ run (run_aligned codec c) s1 = (inl PlatformTypeError, s1).
Proof.
  intros Hwf Hle. destruct (end_run s Hwf) as (buf & _ & Hrun).
  eexists. split; [exact Hrun|].
  set (s1 := mkBitStream [] None 0 _).
  assert (Ha : align s1 = (inr tt, s1)) by reflexivity.
  assert (Hf : flush s1 = (inl PlatformTypeError, s1)) by reflexivity.
  split; [|split].
  - unfold run, end_, mbind, M_bind. now rewrite Ha, Hf.
  - exact Hf.
  - rewrite run_aligned_guard. unfold run, mbind, M_bind, beforeWriteAligned.
    replace (BUFFER_SIZE <? call_byteLength codec c) with false
      by (symmetry; apply Z.ltb_ge; exact Hle).
    unfold mbind, M_bind. rewrite Ha. unfold get_offset.
    destruct (BUFFER_SIZE <=? offset s1 + call_byteLength codec c).
    + now rewrite Hf.
    + destruct c; reflexivity.
Qed.

End PublicMethods.

Lemma calls_only_append_events_witness :
  exists chunks,
    emitted (mkBitStream [] None 0 [Data (Buffer_alloc BUFFER_SIZE); Data [128]; Finish])
    = emitted full_with_pending ++ map Data chunks
      ++ match @CallEnd Z unit, @inr exn unit tt with
         | CallEnd, inr _ => [Finish]
         | _, _ => []
         end.
Proof.
  apply (calls_only_append_events example_codec CallEnd full_with_pending
           (mkBitStream [] None 0 [Data (Buffer_alloc BUFFER_SIZE); Data [128]; Finish])
           (inr tt)).
  vm_compute. reflexivity.
Defined.

Lemma writer_keeps_invariants_witness :
  let s := mkBitStream [] (Some (list_inserts 0 [160; 200] (Buffer_alloc BUFFER_SIZE))) 2 [] in
  Forall (fun c => c = "0"%char \/ c = "1"%char) (bits s)
  /\ (length (bits s) < 8)%nat
  /\ exists buf,
       buffer s = Some buf
       /\ Z.of_nat (length buf) = 1024
       /\ 0 <= offset s <= 1024.
Proof.
  apply (writer_keeps_invariants example_codec _ example_codec_sound).
  apply (reachable_call example_codec (CallAligned (CallFixed UInt8 200))
           (mkBitStream (str "101") (Some (Buffer_alloc BUFFER_SIZE)) 0 []) (inr tt));
    [|discriminate|vm_compute; reflexivity].
  apply (reachable_call example_codec (CallWriteStringBits (str "101"))
           new_BitStream (inr tt));
    [apply reachable_new|discriminate|vm_compute; reflexivity].
Defined.

Lemma ended_writer_throws_witness :
  exists s1,
    run end_ new_BitStream = (inr tt, s1)
    /\ run end_ s1 = (inl PlatformTypeError, s1)
    /\ run flush s1 = (inl PlatformTypeError, s1)
    /\ run (run_aligned example_codec (CallFixed UInt8 200)) s1
       = (inl PlatformTypeError, s1).
Proof.
  apply (ended_writer_throws example_codec (CallFixed UInt8 200) new_BitStream).
  - concrete_wf.
  - simpl. unfold BUFFER_SIZE. lia.
Defined.

(** ** From the first bit to the last chunk *)

(** X17: everything written comes out, padded to whole bytes: on a new
    writer, [writeStringBits] of a non-empty string of binary digits
    followed by [end] returns, and the bytes emitted, read as binary
    digits, are the string followed by the zeros that fill its last
    byte; the completion signal is the last event. *)
Theorem write_then_end_emits_all_bits (value : jsstring) :
  bits_valid value -> value <> [] ->
  exists s' events,
    run (writeStringBits value;; end_) new_BitStream = (inr tt, s')
    /\ emitted s' = events ++ [Finish]
    /\ concat (map byte_digits (emitted_bytes events))
       = value ++ replicate ((8 - length value mod 8) mod 8) "0"%char.
Proof.
  intros Hv Hne.
  assert (Hwf0 : wf new_BitStream) by apply new_BitStream_wf.
  assert (Hne0 : bits new_BitStream ++ value <> []) by exact Hne.
  pose proof (wrote_wf value _ Hwf0 Hv) as Hwf1.
  destruct (end_run _ Hwf1) as (buf & Hb & Hend).
  destruct (aligned_wf _ Hwf1) as (_ & _ & buf' & _ & _ & Ho).
  eexists. exists (emitted (aligned (wrote value new_BitStream))
                   ++ [Data (Buffer_slice buf 0 (offset (aligned (wrote value new_BitStream))))]).
  split; [|split].
  - unfold run, mbind, M_bind.
    pose proof (writeStringBits_run value _ Hwf0 Hv Hne0) as Hw. unfold run in Hw.
    rewrite Hw. exact Hend.
  - cbn [emitted]. now rewrite <- app_assoc.
  - rewrite (written_flushed _ _ Hb) by lia.
    assert (Hs : concat (map byte_digits (written (aligned (wrote value new_BitStream))))
                 = stream_bits (aligned (wrote value new_BitStream)))
      by (unfold stream_bits; now rewrite aligned_bits, app_nil_r).
    rewrite Hs, aligned_stream_bits_padding, wrote_stream_bits by assumption.
    change (stream_bits new_BitStream) with (@nil ascii). cbn [app]. f_equal.
    destruct (wrote_counts value _ Hwf0 Hv) as [_ Hcount].
    cbn [bits new_BitStream length Nat.add] in Hcount.
    destruct Hwf1 as (_ & Hlen & _).
    unfold padding_of.
    destruct (bits (wrote value new_BitStream)) as [|c b] eqn:Eb.
    + cbn [length] in Hcount. rewrite <- Hcount. reflexivity.
    + rewrite <- Hcount. f_equal. symmetry. apply Nat.mod_small.
      cbn [length] in *. lia.
Qed.

Lemma write_then_end_emits_all_bits_witness :
  exists s' events,
    run (writeStringBits (str "0011010111");; end_) new_BitStream = (inr tt, s')
    /\ emitted s' = events ++ [Finish]
    /\ concat (map byte_digits (emitted_bytes events))
       = str "0011010111"
         ++ replicate ((8 - length (str "0011010111") mod 8) mod 8) "0"%char.
Proof.
  apply write_then_end_emits_all_bits.
  - repeat constructor.
  - discriminate.
Defined.
